(** * LRU cache: a shallow embedding of [LRU::Internal::BaseCache]

    Source: [include/lru/internal/base-cache.hpp], with the legacy
    [include/lru/internal/abstract-cache.hpp] in [Module AbstractCache] at the
    end of the definitions.

    The cache owns two containers: the hash index [_cache]
    (a [std::unordered_map<Key, Information>]) and the recency sequence
    [_order] (a [std::list<Key>]). Every [Information] stores an iterator into
    [_order]; list iterators are node identities, so a list node is a pair of
    its identity and its key. Member functions are state transformers over the
    cache record that may return, throw one of the two library errors, or
    leave defined behaviour (dereferencing [end()], [front()] of an empty
    list, a dangling last-accessed pointer). Calls into the attached
    statistics object are recorded as a trace of hit and miss events. The
    caller's [HashFunction] and [KeyEqual] are taken to hash and compare keys
    by equality, and [operator==] on values to be equality. *)

From stdpp Require Import base option list list_numbers gmap fin_maps fin_sets.

(** [Queue::const_iterator]: the identity of a node of [_order]. *)
Abbreviation QueueIterator := nat.

(** [Internal::Queue<Key>] = [std::list<Key>], front (oldest) first. *)
Abbreviation Queue Key := (list (QueueIterator * Key)).

(** [OrderedIterator]: [None] is [ordered_end()]. *)
Abbreviation OrderedIterator := (option QueueIterator).

Section BaseCache.
Context {Key : Type} `{Countable Key}.
Context {Value : Type} `{EqDecision Value}.
(** The statistics object handed to [monitor]: an external collaborator. *)
Context {Statistics : Type}.

(** ** Data *)

(** [InformationType<Key, Value>]: the stored value and the handle of the
    entry's node in the recency sequence, the two members [base-cache.hpp]
    reads and writes (the struct is declared outside the sources). *)
Record Information := MkInformation { order : QueueIterator; value : Value }.

(** [Map::iterator]: [None] is [end()], [Some k] addresses the node of [k]. *)
Local Abbreviation MapIterator := (option Key).

(** The data members of [BaseCache], in declaration order. [_last_accessed]
    holds pointers to the key and the information of one map node; a map
    node is identified by its key. [size_t] values are only ever compared
    here, never added or subtracted, and are kept as [nat]. *)
Record BaseCache := MkBaseCache {
  _cache : gmap Key Information;
  _order : Queue Key;
  _stats : option Statistics;
  _last_accessed : option Key;
  _capacity : nat
}.

Inductive Error := KeyNotFound | NotMonitoring.

(** Calls made on the attached statistics object. *)
Inductive Event := Hit (k : Key) | Miss (k : Key).

Inductive Outcome (A : Type) :=
| Return (a : A)
| Throw (e : Error).
Global Arguments Return {A} a.
Global Arguments Throw {A} e.

Record Run (A : Type) := MkRun {
  result : Outcome A;
  state : BaseCache;
  events : list Event
}.
Global Arguments MkRun {A} _ _ _.
Global Arguments result {A} _.
Global Arguments state {A} _.
Global Arguments events {A} _.

(** A member function: [None] is undefined behaviour. *)
Definition M (A : Type) : Type := BaseCache → option (Run A).

Definition ret {A} (a : A) : M A := λ c, Some (MkRun (Return a) c []).
Definition throw {A} (e : Error) : M A := λ c, Some (MkRun (Throw e) c []).
Definition undefined {A} : M A := λ _, None.

Definition bind {A B} (m : M A) (f : A → M B) : M B := λ c,
  match m c with
  | None => None
  | Some (MkRun (Throw e) c1 ev1) => Some (MkRun (Throw e) c1 ev1)
  | Some (MkRun (Return a) c1 ev1) =>
      match f a c1 with
      | None => None
      | Some (MkRun r c2 ev2) => Some (MkRun r c2 (ev1 ++ ev2))
      end
  end.

Definition get : M BaseCache := λ c, Some (MkRun (Return c) c []).
Definition modify (f : BaseCache → BaseCache) : M unit :=
  λ c, Some (MkRun (Return tt) (f c) []).
Definition notify (e : Event) : M unit :=
  λ c, Some (MkRun (Return tt) c [e]).
Definition assert (b : bool) : M unit := if b then ret tt else undefined.

Local Notation "'let!' x ':=' m 'in' f" := (bind m (λ x, f))
  (at level 10, x pattern, m at level 100, f at level 200).
Local Notation "m ';;' f" := (bind m (λ _, f))
  (at level 100, f at level 200, right associativity).

Definition with_cache (m : gmap Key Information) (c : BaseCache) :=
  MkBaseCache m (_order c) (_stats c) (_last_accessed c) (_capacity c).
Definition with_order (q : Queue Key) (c : BaseCache) :=
  MkBaseCache (_cache c) q (_stats c) (_last_accessed c) (_capacity c).
Definition with_stats (s : option Statistics) (c : BaseCache) :=
  MkBaseCache (_cache c) (_order c) s (_last_accessed c) (_capacity c).
Definition with_last_accessed (l : option Key) (c : BaseCache) :=
  MkBaseCache (_cache c) (_order c) (_stats c) l (_capacity c).
Definition with_capacity (n : nat) (c : BaseCache) :=
  MkBaseCache (_cache c) (_order c) (_stats c) (_last_accessed c) n.

(** ** The containers *)

(** The keys of the recency sequence, oldest first. *)
Definition keys (q : Queue Key) : list Key := q.*2.

(** The identity of a newly allocated list node: unused by any live node. *)
Definition new_node (q : Queue Key) : QueueIterator := S (max_list (q.*1)).

(** [_order.insert(_order.end(), key)] *)
Definition order_insert_end (key : Key) : M QueueIterator := λ c,
  let it := new_node (_order c) in
  Some (MkRun (Return it) (with_order (_order c ++ [(it, key)]) c) []).

(** [_order.erase(it)]; [it] must address a live node. *)
Definition order_erase (it : QueueIterator) : M unit := λ c,
  if decide (it ∈ (_order c).*1)
  then modify (with_order (filter (λ n, n.1 ≠ it) (_order c))) c
  else None.

(** [_order.front()]; the list must not be empty. *)
Definition order_front : M Key := λ c,
  match _order c with
  | [] => None
  | n :: _ => ret n.2 c
  end.

(** [_cache.find(key)] *)
Definition cache_find (key : Key) : M MapIterator := λ c,
  match _cache c !! key with
  | Some _ => ret (Some key) c
  | None => ret None c
  end.

(** [iterator->first], [iterator->second]; [iterator] must address a live
    node of [_cache]. *)
Definition deref (iterator : MapIterator) : M (Key * Information) := λ c,
  match iterator with
  | Some k =>
      match _cache c !! k with
      | Some i => ret (k, i) c
      | None => None
      end
  | None => None
  end.

(** [_cache.emplace(key, information).second] *)
Definition cache_emplace (key : Key) (i : Information) : M bool := λ c,
  match _cache c !! key with
  | Some _ => ret false c
  | None => (modify (with_cache (<[key := i]> (_cache c))) ;; ret true) c
  end.

(** [_cache.erase(key)] and [_cache.erase(iterator)] *)
Definition cache_erase (key : Key) : M unit :=
  modify (λ c, with_cache (delete key (_cache c)) c).

(** Assignment through [iterator->second]. *)
Definition cache_assign (key : Key) (i : Information) : M unit :=
  modify (λ c, with_cache (<[key := i]> (_cache c)) c).

(** ** The last-accessed slot *)

(** Modelled from the spec: [Internal::LastAccessed] is declared in
    [lru/internal/last-accessed.hpp], which is not part of the sources. Spec 2
    and 3 (I4): a single optional reference to the entry most recently
    touched; populated, it names a key. [_last_accessed == key] holds when
    the slot is populated and names [key]. *)
Definition last_accessed_is (key : Key) : M bool := λ c,
  ret (bool_decide (_last_accessed c = Some key)) c.

(** Modelled from the spec: [_last_accessed == iterator] compares the slot
    with the key the iterator addresses; [end()] addresses none. *)
Definition last_accessed_at (iterator : MapIterator) : M bool := λ c,
  match iterator with
  | Some k => last_accessed_is k c
  | None => ret false c
  end.

(** Modelled from the spec: [_last_accessed = iterator] makes the slot refer
    to the entry the iterator addresses. *)
Definition last_accessed_assign (iterator : MapIterator) : M unit :=
  modify (with_last_accessed iterator).

(** Modelled from the spec: [_last_accessed.invalidate()] empties the slot. *)
Definition invalidate : M unit := modify (with_last_accessed None).

(** Modelled from the spec: [_last_accessed.key()] with
    [_last_accessed.value()], the key and the information of the entry the
    slot refers to; that entry must be alive. *)
Definition last_accessed_entry : M (Key * Information) := λ c,
  deref (_last_accessed c) c.

(** ** Size and capacity *)

Definition size (c : BaseCache) : nat := base.size (_cache c).
Definition capacity (c : BaseCache) : nat := _capacity c.
Definition is_empty (c : BaseCache) : bool := bool_decide (size c = 0).
Definition is_full (c : BaseCache) : bool :=
  bool_decide (size c = _capacity c).

(** ** Statistics *)

(** [_stats] is an [Internal::StatisticsMutator], declared in a header that is
    not part of the sources; it is empty or holds the attached object. *)

Definition monitor (statistics : Statistics) : M unit :=
  modify (with_stats (Some statistics)).

Definition stop_monitoring : M unit := modify (with_stats None).

(** Modelled from the spec: [_stats.has_statistics()], spec 4.6
    ([is_monitoring] reports attachment). *)
Definition is_monitoring (c : BaseCache) : bool :=
  bool_decide (is_Some (_stats c)).

(** Modelled from the spec: [_stats.get()], the attached object. *)
Definition stats_get : M Statistics := λ c,
  match _stats c with
  | Some s => ret s c
  | None => None
  end.

Definition statistics : M Statistics := λ c,
  if negb (is_monitoring c) then throw NotMonitoring c else stats_get c.

(** Modelled from the spec: [_stats.register_hit(key)] and
    [_stats.register_miss(key)] are the hit and miss notifications of spec
    4.6, recorded in the trace. *)
Definition register_hit (key : Key) : M unit := notify (Hit key).
Definition register_miss (key : Key) : M unit := notify (Miss key).

Definition _register_hit_if_monitoring (key : Key) : M unit := λ c,
  if is_monitoring c then register_hit key c else ret tt c.

Definition _register_miss_if_monitoring (key : Key) : M unit := λ c,
  if is_monitoring c then register_miss key c else ret tt c.

(** ** Protected members *)

Definition _key_is_last_accessed (key : Key) : M bool :=
  last_accessed_is key.

Definition _value_for_last_accessed : M Value :=
  let! e := last_accessed_entry in ret (value e.2).

Definition _move_to_front (iterator : MapIterator) (new_value : Value)
    : M unit :=
  let! e := deref iterator in
  order_erase (order e.2) ;;
  let! new_order := order_insert_end e.1 in
  cache_assign e.1 (MkInformation new_order new_value) ;;
  last_accessed_assign iterator.

(** [_erase(MapConstIterator)] *)
Definition _erase (iterator : MapIterator) : M unit :=
  let! hit := last_accessed_at iterator in
  (if hit then invalidate else ret tt) ;;
  let! e := deref iterator in
  order_erase (order e.2) ;;
  cache_erase e.1.

(** [_erase(const Key&, const Information&)] *)
Definition _erase_key (key : Key) (information : Information) : M unit :=
  let! hit := last_accessed_is key in
  (if hit then invalidate else ret tt) ;;
  order_erase (order information) ;;
  cache_erase key.

Definition _erase_lru : M unit :=
  let! front := order_front in
  let! iterator := cache_find front in
  _erase iterator.

(** ** Lookup *)

(** Modelled from the spec: [BaseCache::find] is pure virtual and its
    override belongs to the derived cache class, which is not part of the
    sources. Spec 4.1: if the last-accessed slot names [key], one hit event
    and no probe of the hash index; else probe the hash index, on a hit
    update the slot and notify one hit event, on a miss notify one miss
    event and return the end iterator. The recency sequence is not
    touched. *)
Definition find (key : Key) : M MapIterator :=
  let! fast := _key_is_last_accessed key in
  if fast : bool then
    _register_hit_if_monitoring key ;; ret (Some key)
  else
    let! iterator := cache_find key in
    match iterator with
    | Some _ =>
        last_accessed_assign iterator ;;
        _register_hit_if_monitoring key ;;
        ret iterator
    | None => _register_miss_if_monitoring key ;; ret None
    end.

Definition contains (key : Key) : M bool :=
  let! fast := _key_is_last_accessed key in
  if fast : bool then
    _register_hit_if_monitoring key ;; ret true
  else
    let! iterator := find key in
    match iterator with
    | Some _ => last_accessed_assign iterator ;; ret true
    | None => ret false
    end.

Definition lookup (key : Key) : M Value :=
  let! fast := last_accessed_is key in
  if fast : bool then
    _register_hit_if_monitoring key ;; _value_for_last_accessed
  else
    let! iterator := find key in
    match iterator with
    | None => throw KeyNotFound
    | Some _ => let! e := deref iterator in ret (value e.2)
    end.

(** ** Insertion *)

(** [InsertionResult]: whether a new entry was inserted, and its position. *)
Definition InsertionResultType : Type := bool * MapIterator.

Definition insert (key : Key) (v : Value) : M InsertionResultType :=
  let! iterator := cache_find key in
  match iterator with
  | None =>
      let! c := get in
      (if is_full c then _erase_lru else ret tt) ;;
      let! o := order_insert_end key in
      let! inserted := cache_emplace key (MkInformation o v) in
      assert inserted ;;
      last_accessed_assign (Some key) ;;
      ret (true, Some key)
  | Some _ =>
      _move_to_front iterator v ;;
      ret (false, iterator)
  end.

(** [emplace]: the key and the value are constructed from their arguments;
    the construction itself is the identity here. *)
Definition emplace (key_argument : Key) (value_argument : Value)
    : M InsertionResultType :=
  let key := key_argument in
  let! iterator := cache_find key in
  match iterator with
  | None =>
      let! c := get in
      (if is_full c then _erase_lru else ret tt) ;;
      let! o := order_insert_end key in
      let! inserted := cache_emplace key (MkInformation o value_argument) in
      assert inserted ;;
      last_accessed_assign (Some key) ;;
      ret (true, Some key)
  | Some _ =>
      let v := value_argument in
      _move_to_front iterator v ;;
      ret (false, iterator)
  end.

(** [insert(begin, end)], [insert(range)] and [insert(list)]: one [insert]
    per pair, in iteration order. *)
Fixpoint insert_range (range : list (Key * Value)) : M unit :=
  match range with
  | [] => ret tt
  | p :: range' => insert p.1 p.2 ;; insert_range range'
  end.

(** The loop of [operator=(Range&&)]: one [emplace] per pair. *)
Fixpoint emplace_range (range : list (Key * Value)) : M unit :=
  match range with
  | [] => ret tt
  | p :: range' => emplace p.1 p.2 ;; emplace_range range'
  end.

(** ** Removal *)

Definition erase (key : Key) : M bool :=
  let! fast := last_accessed_is key in
  if fast : bool then
    let! e := last_accessed_entry in
    _erase_key e.1 e.2 ;; ret true
  else
    let! iterator := cache_find key in
    match iterator with
    | Some _ => _erase iterator ;; ret true
    | None => ret false
    end.

(** [erase(UnorderedConstIterator)] *)
Definition erase_unordered (iterator : MapIterator) : M bool :=
  match iterator with
  | Some _ => _erase iterator ;; ret true
  | None => ret false
  end.

(** [iterator.key()] of an ordered iterator: the key held by its node. *)
Definition ordered_key (it : QueueIterator) : M Key := λ c,
  match list_find (λ n, n.1 = it) (_order c) with
  | Some (_, n) => ret n.2 c
  | None => None
  end.

(** [erase(OrderedConstIterator)] *)
Definition erase_ordered (iterator : OrderedIterator) : M bool :=
  match iterator with
  | Some it =>
      let! key := ordered_key it in
      let! i := cache_find key in
      _erase i ;; ret true
  | None => ret false
  end.

Definition clear : M unit :=
  modify (with_cache ∅) ;;
  modify (with_order []) ;;
  invalidate.

(** [while (size() > bound) _erase_lru();] unrolled at most [fuel] times.
    Every eviction that returns removes one entry of the hash index, so
    [size()] iterations always suffice (see [evict_while_fuel]). *)
Fixpoint evict_while (fuel : nat) (bound : nat) : M unit := λ c,
  if decide (bound < size c) then
    match fuel with
    | 0 => None
    | S fuel' => (_erase_lru ;; evict_while fuel' bound) c
    end
  else ret tt c.

Definition shrink (new_size : nat) : M unit := λ c,
  if decide (size c ≤ new_size) then ret tt c
  else if decide (new_size = 0) then clear c
  else evict_while (size c) new_size c.

(** [capacity(size_t new_capacity)] *)
Definition capacity_set (new_capacity : nat) : M unit := λ c,
  (evict_while (size c) new_capacity ;;
   modify (with_capacity new_capacity)) c.

(** ** Structural operations *)

(** [operator=(const Range&)] and [operator=(InitializerList)] *)
Definition assign (range : list (Key * Value)) : M unit :=
  clear ;; insert_range range.

(** [operator=(Range&&)] *)
Definition assign_move (range : list (Key * Value)) : M unit :=
  clear ;; emplace_range range.

(** The constructor [BaseCache(capacity, hash, key_equal)]. *)
Definition new (capacity : nat) : BaseCache :=
  MkBaseCache ∅ [] None None capacity.

(** [swap(other)]: the statistics are not exchanged. *)
Definition swap (c other : BaseCache) : BaseCache * BaseCache :=
  (MkBaseCache (_cache other) (_order other) (_stats c)
     (_last_accessed other) (_capacity other),
   MkBaseCache (_cache c) (_order c) (_stats other)
     (_last_accessed c) (_capacity c)).

(** Modelled from the spec: [Information::operator==] is declared in a
    header that is not part of the sources. Spec 3 (I5) and 8: two caches
    are equal iff they hold the same keys with the same values in the same
    recency order, so two informations compare by their values and not by
    their list handles. *)
Definition information_eq (i j : Information) : bool :=
  bool_decide (value i = value j).

(** [std::unordered_map::operator==]: equal sizes, and every entry of the
    left map is found in the right one with an equal mapped value. *)
Definition map_eq_op (m1 m2 : gmap Key Information) : bool :=
  bool_decide (base.size m1 = base.size m2) &&
  forallb (λ e, match m2 !! e.1 with
                | Some j => information_eq e.2 j
                | None => false
                end) (map_to_list m1).

(** [std::list::operator==] on the elements. *)
Definition queue_eq_op (q1 q2 : Queue Key) : bool :=
  bool_decide (keys q1 = keys q2).

(** [operator==]; the identity shortcut [this == &other] returns what the
    comparison of an object with itself returns. *)
Definition operator_eq (c other : BaseCache) : bool :=
  if negb (map_eq_op (_cache c) (_cache other)) then false
  else if negb (queue_eq_op (_order c) (_order other)) then false
  else true.

(** ** The public interface as data *)

Inductive Call : Type → Type :=
| CallContains (key : Key) : Call bool
| CallLookup (key : Key) : Call Value
| CallFind (key : Key) : Call MapIterator
| CallInsert (key : Key) (v : Value) : Call InsertionResultType
| CallEmplace (key : Key) (v : Value) : Call InsertionResultType
| CallInsertRange (range : list (Key * Value)) : Call unit
| CallAssign (range : list (Key * Value)) : Call unit
| CallAssignMove (range : list (Key * Value)) : Call unit
| CallErase (key : Key) : Call bool
| CallEraseUnordered (iterator : MapIterator) : Call bool
| CallEraseOrdered (iterator : OrderedIterator) : Call bool
| CallClear : Call unit
| CallShrink (new_size : nat) : Call unit
| CallCapacity (new_capacity : nat) : Call unit
| CallMonitor (s : Statistics) : Call unit
| CallStopMonitoring : Call unit
| CallStatistics : Call Statistics.

Definition call {A} (op : Call A) : M A :=
  match op with
  | CallContains key => contains key
  | CallLookup key => lookup key
  | CallFind key => find key
  | CallInsert key v => insert key v
  | CallEmplace key v => emplace key v
  | CallInsertRange range => insert_range range
  | CallAssign range => assign range
  | CallAssignMove range => assign_move range
  | CallErase key => erase key
  | CallEraseUnordered iterator => erase_unordered iterator
  | CallEraseOrdered iterator => erase_ordered iterator
  | CallClear => clear
  | CallShrink n => shrink n
  | CallCapacity n => capacity_set n
  | CallMonitor s => monitor s
  | CallStopMonitoring => stop_monitoring
  | CallStatistics => statistics
  end.

(** The iterators passed to a call address live entries of [c]. *)
Definition valid_call {A} (op : Call A) (c : BaseCache) : Prop :=
  match op with
  | CallEraseUnordered (Some k) => is_Some (_cache c !! k)
  | CallEraseOrdered (Some it) => it ∈ (_order c).*1
  | _ => True
  end.

(** The caches a program can hold: a constructed cache, the cache left by
    any public call that returned or threw, and either side of a swap of
    two such caches. The constructors that take initial content are
    [new] followed by [insert_range]. *)
Inductive reachable : BaseCache → Prop :=
| reachable_new n : reachable (new n)
| reachable_call {A} (op : Call A) c r :
    reachable c → call op c = Some r → reachable (state r)
| reachable_swap_fst c d :
    reachable c → reachable d → reachable (swap c d).1
| reachable_swap_snd c d :
    reachable c → reachable d → reachable (swap c d).2.

(** ** Observations and invariants *)

(** The key/value content of the hash index. *)
Definition contents (c : BaseCache) : gmap Key Value := value <$> _cache c.

(** The recency order, oldest first. *)
Definition recency (c : BaseCache) : list Key := keys (_order c).

(** I4: a populated slot names a key of the hash index. *)
Definition slot_valid (c : BaseCache) : Prop :=
  match _last_accessed c with
  | Some k => is_Some (_cache c !! k)
  | None => True
  end.

(** I1, I3 and I4: list nodes are distinct, each node's key is in the hash
    index with that node as its handle, each entry's handle is a node
    holding the entry's key, and the slot is valid. *)
Definition linked (c : BaseCache) : Prop :=
  NoDup (_order c).*1 ∧
  Forall (λ n, order <$> _cache c !! n.2 = Some n.1) (_order c) ∧
  map_Forall (λ k i, (order i, k) ∈ _order c) (_cache c) ∧
  slot_valid c.

(** The structural invariant together with I2; it holds of every reachable
    cache ([reachable_wf]). *)
Definition wf (c : BaseCache) : Prop := linked c ∧ size c ≤ _capacity c.

Global Instance slot_valid_dec c : Decision (slot_valid c).
Proof. unfold slot_valid. destruct (_last_accessed c); apply _. Defined.

Global Instance wf_dec c : Decision (wf c).
Proof. unfold wf, linked. apply _. Defined.

(** ** Closed forms of the three structural updates *)

(** The slot after the entry of [k] is removed. *)
Definition slot_without (k : Key) (c : BaseCache) : option Key :=
  if bool_decide (_last_accessed c = Some k) then None
  else _last_accessed c.

(** The cache after [_erase] of the entry [(k, i)]. *)
Definition erased (k : Key) (i : Information) (c : BaseCache) : BaseCache :=
  MkBaseCache (delete k (_cache c))
    (filter (λ n, n.1 ≠ order i) (_order c))
    (_stats c) (slot_without k c) (_capacity c).

(** The cache after a new entry for [k] is appended. *)
Definition appended (k : Key) (v : Value) (c : BaseCache) : BaseCache :=
  MkBaseCache (<[k := MkInformation (new_node (_order c)) v]> (_cache c))
    (_order c ++ [(new_node (_order c), k)])
    (_stats c) (Some k) (_capacity c).

(** The cache after [_move_to_front] of the entry [(k, i)]. *)
Definition promoted (k : Key) (i : Information) (v : Value) (c : BaseCache)
    : BaseCache :=
  appended k v (with_order (filter (λ n, n.1 ≠ order i) (_order c)) c).

(** ** Further members *)

(** [space_left()]: [_capacity - size()] in [size_t], an unsigned type of
    [width] bits, so the difference wraps around. *)
Definition space_left (width : Z) (c : BaseCache) : Z :=
  (Z.of_nat (_capacity c) - Z.of_nat (size c)) `mod` 2 ^ width.

(** [operator!=] *)
Definition operator_ne (c other : BaseCache) : bool :=
  negb (operator_eq c other).

(** [operator[]] *)
Definition operator_index (key : Key) : M Value := lookup key.

(** [BaseCache(capacity, begin, end, hash, key_equal)] and the constructors
    delegating to it: construct, then [insert(begin, end)]. [None] when an
    insert is undefined. *)
Definition new_from (capacity : nat) (range : list (Key * Value))
    : option BaseCache :=
  state <$> insert_range range (new capacity).

(** [BaseCache(begin, end, hash, key_equal)], [BaseCache(range, ...)] and
    [BaseCache(list, ...)]: the capacity is [std::distance(begin, end)]. *)
Definition new_of (range : list (Key * Value)) : option BaseCache :=
  new_from (length range) range.

(** ** Classes of public calls *)




(** ** A reference model of the recency order *)

(** Using [k]: it becomes the newest key. *)
Definition touch (k : Key) (ks : list Key) : list Key :=
  filter (λ k', k' ≠ k) ks ++ [k].

(** Keeping the [n] newest keys. *)
Definition trim (n : nat) (ks : list Key) : list Key :=
  drop (length ks - n) ks.

(** The recency order after using the keys [ks] one after the other in a
    cache of capacity [n]. *)
Definition lru_order (n : nat) (ks0 ks : list Key) : list Key :=
  foldl (λ order k, trim n (touch k order)) ks0 ks.

End BaseCache.

(** * The legacy [LRU::AbstractCache] ([abstract-cache.hpp]) *)

Module AbstractCache.
Section AbstractCache.
Context {Key : Type} `{Countable Key}.
Context {Value : Type}.
Local Abbreviation MapIterator := (option Key).

Record AbstractCache := MkAbstractCache {
  _cache : gmap Key (@Information Value);
  _order : Queue Key;
  _last_accessed : option Key;
  _capacity : nat
}.

(** [AbstractCache(capacity)] *)
Definition new (capacity : nat) : AbstractCache :=
  MkAbstractCache ∅ [] None capacity.

Definition size (c : AbstractCache) : nat := base.size (_cache c).
Definition capacity (c : AbstractCache) : nat := _capacity c.
Definition is_empty (c : AbstractCache) : bool := bool_decide (size c = 0).
Definition is_full (c : AbstractCache) : bool :=
  bool_decide (size c = _capacity c).

(** [_cache.clear(); _order.clear();] and nothing else. *)
Definition clear (c : AbstractCache) : AbstractCache :=
  MkAbstractCache ∅ [] (_last_accessed c) (_capacity c).

(** [_erase(MapIterator)]; [None] is undefined behaviour. *)
Definition _erase (iterator : MapIterator) (c : AbstractCache)
    : option AbstractCache :=
  match iterator with
  | Some k =>
      match _cache c !! k with
      | Some i =>
          let slot :=
            if bool_decide (_last_accessed c = Some k) then None
            else _last_accessed c in
          if decide (order i ∈ (_order c).*1) then
            Some (MkAbstractCache (delete k (_cache c))
                    (filter (λ n, n.1 ≠ order i) (_order c))
                    slot (_capacity c))
          else None
      | None => None
      end
  | None => None
  end.

Definition _erase_lru (c : AbstractCache) : option AbstractCache :=
  match _order c with
  | [] => None
  | lru :: rest =>
      Some (MkAbstractCache (delete lru.2 (_cache c)) rest
              (_last_accessed c) (_capacity c))
  end.

Definition erase (key : Key) (c : AbstractCache) : option AbstractCache :=
  c1 ← (if bool_decide (_last_accessed c = Some key)
        then _erase (_last_accessed c) c else Some c);
  match _cache c1 !! key with
  | Some _ => _erase (Some key) c1
  | None => Some c1
  end.

(** I4 for the legacy class. *)
Definition slot_valid (c : AbstractCache) : Prop :=
  match _last_accessed c with
  | Some k => is_Some (_cache c !! k)
  | None => True
  end.

(** [space_left()] *)
Definition space_left (width : Z) (c : AbstractCache) : Z :=
  (Z.of_nat (_capacity c) - Z.of_nat (size c)) `mod` 2 ^ width.

(** The same containers, slot and capacity as a [BaseCache] without a
    statistics object. *)
Definition to_base (c : AbstractCache) : @BaseCache Key _ _ Value unit :=
  MkBaseCache (_cache c) (_order c) None (_last_accessed c) (_capacity c).

End AbstractCache.
End AbstractCache.


(** * Concrete caches *)

Module Examples.

Definition Cache : Type := @BaseCache nat _ _ nat unit.

(** The cache a call leaves behind ([c] itself where the call is
    undefined). *)
Definition after {A} (m : M A) (c : Cache) : Cache :=
  match m c with
  | Some r => state r
  | None => c
  end.

(** Capacity 2 holding keys 1 and 2, in this order of insertion. *)
Definition two_of_two : Cache :=
  after (insert 2 20) (after (insert 1 10) (new 2)).

(** Capacity 3 holding keys 1 and 2. *)
Definition two_of_three : Cache :=
  after (insert 2 20) (after (insert 1 10) (new 3)).

(** The same with a statistics object attached. *)
Definition monitored : Cache := after (monitor tt) two_of_three.

(** Keys 1 and 2 again, but with capacity 7, other list nodes, a statistics
    object attached and the slot on key 1. *)
Definition other_two : Cache :=
  after (contains 1)
    (after (monitor tt)
       (after (erase 5)
          (after (insert 2 20)
             (after (insert 5 50) (after (insert 1 10) (new 7)))))).

(** A legacy cache holding key 1, which its slot names. *)
Definition legacy : @AbstractCache.AbstractCache nat _ _ nat :=
  AbstractCache.MkAbstractCache {[1 := MkInformation 1 10]} [(1, 1)] (Some 1) 2.

(** [two_of_two] after re-inserting key 1 with its old value: the same
    pairs, key 1 now newest. *)
Definition reordered_two : Cache := after (insert 1 10) two_of_two.

(** [two_of_two] after re-inserting key 2 with another value: the same
    recency order, another value. *)
Definition revalued_two : Cache := after (insert 2 99) two_of_two.

(** Capacity 3 holding keys 1, 2 and 3, oldest first. *)
Definition three_of_three : Cache := after (insert 3 30) two_of_three.

(** A legacy cache holding keys 1 and 2 whose slot names the oldest key. *)
Definition legacy_two : @AbstractCache.AbstractCache nat _ _ nat :=
  AbstractCache.MkAbstractCache
    {[1 := MkInformation 1 10; 2 := MkInformation 2 20]}
    [(1, 1); (2, 2)] (Some 1) 2.

End Examples.

(** * Properties *)

Section Properties.
Context {Key : Type} `{Countable Key}.
Context {Value : Type} `{EqDecision Value}.
Context {Statistics : Type}.

Local Abbreviation Cache := (@BaseCache Key _ _ Value Statistics).
Local Abbreviation Info := (@Information Value).
Implicit Types (c d : Cache) (k key : Key) (v : Value) (i : Info).
Implicit Types (q : Queue Key) (h : QueueIterator).

(** ** The recency sequence *)

Lemma new_node_fresh q : new_node q ∉ q.*1.
Proof.
  intros Hin. apply max_list_elem_of_le in Hin. unfold new_node in Hin. lia.
Qed.

Lemma NoDup_fst_filter (P : QueueIterator * Key → Prop)
    `{!∀ n, Decision (P n)} q :
  NoDup q.*1 → NoDup (filter P q).*1.
Proof.
  intros Hq. eapply sublist_NoDup; [exact Hq|].
  apply fmap_sublist, sublist_filter.
Qed.

Lemma filter_ext_in {A} (P Q : A → Prop) `{!∀ x, Decision (P x)}
    `{!∀ x, Decision (Q x)} (l : list A) :
  (∀ x, x ∈ l → P x ↔ Q x) → filter P l = filter Q l.
Proof.
  induction l as [|x l IH]; intros Hext; [done|].
  rewrite !filter_cons.
  rewrite IH by (intros y Hy; apply Hext; by right).
  destruct (decide (P x)) as [HP|HP], (decide (Q x)) as [HQ|HQ];
    try done; exfalso; apply (Hext x) in HP || apply (Hext x) in HQ;
    try done; by left.
Qed.

Lemma keys_filter (P : Key → Prop) `{!∀ k, Decision (P k)} q :
  keys (filter (λ n, P n.2) q) = filter P (keys q).
Proof.
  unfold keys. induction q as [|n q IH]; [done|].
  rewrite fmap_cons. destruct (decide (P n.2)) as [HP|HP].
  - rewrite (filter_cons_True P), (filter_cons_True (λ n, P n.2)) by done.
    simpl. f_equal. apply IH.
  - rewrite (filter_cons_False P), (filter_cons_False (λ n, P n.2)) by done.
    apply IH.
Qed.

Lemma filter_front h k q :
  NoDup ((h, k) :: q).*1 → filter (λ n, n.1 ≠ h) ((h, k) :: q) = q.
Proof.
  rewrite fmap_cons. simpl. intros [Hh _]%NoDup_cons.
  rewrite filter_cons_False by (simpl; intros Hne; by apply Hne).
  induction q as [|n q IH]; [done|].
  rewrite fmap_cons in Hh. apply not_elem_of_cons in Hh as [Hne Hh].
  rewrite filter_cons_True by (simpl; congruence).
  by rewrite IH.
Qed.

Lemma NoDup_fst_functional {A B} (l : list (A * B)) x y1 y2 :
  NoDup l.*1 → (x, y1) ∈ l → (x, y2) ∈ l → y1 = y2.
Proof.
  induction l as [|[a b] l IH]; [by inversion 2|].
  rewrite fmap_cons. simpl. intros [Ha Hnd]%NoDup_cons.
  intros [H1|H1]%elem_of_cons [H2|H2]%elem_of_cons.
  - congruence.
  - exfalso. apply Ha. injection H1 as -> ->.
    by apply (list_elem_of_fmap_2 fst) in H2.
  - exfalso. apply Ha. injection H2 as -> ->.
    by apply (list_elem_of_fmap_2 fst) in H1.
  - by apply IH.
Qed.

(** ** The structural invariant *)

Lemma linked_handle c k i :
  linked c → _cache c !! k = Some i → (order i, k) ∈ _order c.
Proof. intros (_ & _ & Hm & _) Hk. exact (Hm k i Hk). Qed.

Lemma linked_node c n :
  linked c → n ∈ _order c → ∃ i, _cache c !! n.2 = Some i ∧ order i = n.1.
Proof.
  intros (_ & Hq & _) Hn. rewrite Forall_forall in Hq.
  specialize (Hq n Hn). destruct (_cache c !! n.2) as [i|]; [|done].
  exists i. split; [done|]. by injection Hq.
Qed.

Lemma linked_handle_key c k i n :
  linked c → _cache c !! k = Some i → n ∈ _order c →
  n.1 = order i ↔ n.2 = k.
Proof.
  intros Hc Hk Hn. split.
  - intros Hh. pose proof (linked_handle c k i Hc Hk) as Hin.
    destruct Hc as (Hnd & _). destruct n as [h k']. simpl in *. subst h.
    exact (NoDup_fst_functional _ _ _ _ Hnd Hn Hin).
  - intros <-. destruct (linked_node c n Hc Hn) as (i' & Hi' & <-).
    congruence.
Qed.

Lemma linked_handle_live c k i :
  linked c → _cache c !! k = Some i → order i ∈ (_order c).*1.
Proof.
  intros Hc Hk. apply list_elem_of_fmap. exists (order i, k).
  split; [done|]. by apply linked_handle.
Qed.

Lemma linked_keys_NoDup c : linked c → NoDup (recency c).
Proof.
  intros Hc. unfold recency, keys. apply NoDup_fmap_2_strong.
  - intros n m Hn Hm Hnm.
    destruct (linked_node c n Hc Hn) as (i & Hi & Hin).
    destruct (linked_node c m Hc Hm) as (j & Hj & Hjm).
    destruct n, m; simpl in *; subst. congruence.
  - destruct Hc as (Hnd & _). by apply NoDup_fmap_1 in Hnd.
Qed.

Lemma linked_dom c : linked c → dom (_cache c) = list_to_set (recency c).
Proof.
  intros Hc. apply set_eq. intros k.
  rewrite elem_of_dom, elem_of_list_to_set. unfold recency, keys. split.
  - intros [i Hi]. apply list_elem_of_fmap. exists (order i, k).
    split; [done|]. by apply linked_handle.
  - intros (n & -> & Hn)%list_elem_of_fmap.
    destruct (linked_node c n Hc Hn) as (i & Hi & _). by exists i.
Qed.

(** I1: both containers hold the same number of entries. *)
Lemma linked_size c : linked c → base.size (_cache c) = length (_order c).
Proof.
  intros Hc. rewrite <-size_dom, (linked_dom c Hc).
  rewrite size_list_to_set by by apply linked_keys_NoDup.
  unfold recency, keys. by rewrite length_fmap.
Qed.

Lemma recency_erase c k i :
  linked c → _cache c !! k = Some i →
  keys (filter (λ n, n.1 ≠ order i) (_order c))
  = filter (λ k', k' ≠ k) (recency c).
Proof.
  intros Hc Hk. unfold recency. rewrite <-(keys_filter (λ k', k' ≠ k)).
  f_equal. apply filter_ext_in. intros n Hn.
  by rewrite (linked_handle_key c k i n Hc Hk Hn).
Qed.

(** ** The closed forms keep the structure *)

Lemma linked_erased c k i :
  linked c → _cache c !! k = Some i → linked (erased k i c).
Proof.
  intros Hc Hk. pose proof Hc as (Hnd & Hq & Hm & Hs).
  unfold linked, erased; simpl. split_and!.
  - by apply NoDup_fst_filter.
  - apply Forall_forall. intros n [Hne Hn]%list_elem_of_filter.
    rewrite Forall_forall in Hq. rewrite lookup_delete_ne; [by apply Hq|].
    intros ->. apply Hne. by apply (linked_handle_key c n.2 i n).
  - intros k' i' [Hne Hk']%lookup_delete_Some.
    apply list_elem_of_filter. split; [|by apply (Hm k' i')]. simpl.
    intros Heq. apply Hne. symmetry.
    apply (linked_handle_key c k i (order i', k') Hc Hk); [|done].
    by apply (Hm k' i').
  - unfold slot_valid, slot_without in *; simpl.
    case_bool_decide as Hla; [done|].
    destruct (_last_accessed c) as [k'|]; [|done].
    rewrite lookup_delete_ne; [done|congruence].
Qed.

Lemma size_erased c k i :
  _cache c !! k = Some i → S (size (erased k i c)) = size c.
Proof.
  intros Hk. unfold size, erased; simpl.
  rewrite map_size_delete_Some by done.
  assert (base.size (_cache c) ≠ 0); [|lia].
  intros Hz%map_size_empty_inv. by rewrite Hz in Hk.
Qed.

Lemma linked_appended_weak c k v :
  NoDup (_order c).*1 →
  Forall (λ n, n.2 ≠ k ∧ order <$> _cache c !! n.2 = Some n.1) (_order c) →
  map_Forall (λ k' i', k' ≠ k → (order i', k') ∈ _order c) (_cache c) →
  linked (appended k v c).
Proof.
  intros Hnd Hq Hm. unfold linked, appended; simpl. split_and!.
  - rewrite fmap_app. apply NoDup_app.
    split_and!; [done| |apply NoDup_singleton].
    intros h Hh. simpl. rewrite list_elem_of_singleton. intros ->.
    by apply (new_node_fresh (_order c)).
  - apply Forall_app. split.
    + eapply Forall_impl; [exact Hq|]. intros n [Hne Hn]. simpl in *.
      by rewrite lookup_insert_ne.
    + apply Forall_singleton. simpl. by rewrite lookup_insert_eq.
  - intros k' i'. rewrite elem_of_app, list_elem_of_singleton.
    destruct (decide (k' = k)) as [->|Hne].
    + rewrite lookup_insert_eq. intros [= <-]. by right.
    + rewrite lookup_insert_ne by done. intros Hk'. left. by apply (Hm k' i').
  - unfold slot_valid; simpl. by rewrite lookup_insert_eq.
Qed.

Lemma linked_appended c k v :
  linked c → _cache c !! k = None → linked (appended k v c).
Proof.
  intros Hc Hk. pose proof Hc as (Hnd & Hq & Hm & _).
  apply linked_appended_weak; [done| |].
  - apply Forall_forall. intros n Hn. rewrite Forall_forall in Hq.
    split; [|by apply Hq].
    intros <-. destruct (linked_node c n Hc Hn) as (i & Hi & _). congruence.
  - intros k' i' Hk' _. by apply (Hm k' i').
Qed.

Lemma linked_promoted c k i v :
  linked c → _cache c !! k = Some i → linked (promoted k i v c).
Proof.
  intros Hc Hk. pose proof Hc as (Hnd & Hq & Hm & _).
  apply linked_appended_weak; simpl.
  - by apply NoDup_fst_filter.
  - apply Forall_forall. intros n [Hne Hn]%list_elem_of_filter.
    rewrite Forall_forall in Hq. split; [|by apply Hq].
    intros Heq. apply Hne. by apply (linked_handle_key c k i n).
  - intros k' i' Hk' Hne. apply list_elem_of_filter.
    split; [|by apply (Hm k' i')]. simpl. intros Heq. apply Hne.
    apply (linked_handle_key c k i (order i', k') Hc Hk); [|done].
    by apply (Hm k' i').
Qed.

Lemma size_appended c k v :
  _cache c !! k = None → size (appended k v c) = S (size c).
Proof.
  intros Hk. unfold size, appended; simpl. by apply map_size_insert_None.
Qed.

Lemma size_promoted c k i v :
  _cache c !! k = Some i → size (promoted k i v c) = size c.
Proof.
  intros Hk. unfold size, promoted, appended; simpl.
  by apply map_size_insert_Some.
Qed.

(** ** Running the protected members *)

Lemma erase_iterator_run c k i :
  _cache c !! k = Some i → order i ∈ (_order c).*1 →
  _erase (Some k) c = Some (MkRun (Return tt) (erased k i c) []).
Proof.
  intros Hk Hh.
  unfold _erase, bind, last_accessed_at, last_accessed_is, ret, invalidate,
    modify, deref, order_erase, cache_erase, erased, slot_without.
  destruct (bool_decide _); simpl; rewrite Hk; simpl;
    by rewrite decide_True by done.
Qed.

Lemma erase_key_run c k i :
  order i ∈ (_order c).*1 →
  _erase_key k i c = Some (MkRun (Return tt) (erased k i c) []).
Proof.
  intros Hh.
  unfold _erase_key, bind, last_accessed_is, ret, invalidate,
    modify, order_erase, cache_erase, erased, slot_without.
  destruct (bool_decide _); simpl; by rewrite decide_True by done.
Qed.

Lemma erase_lru_run c n rest :
  linked c → _order c = n :: rest →
  ∃ i, _cache c !! n.2 = Some i ∧ order i = n.1 ∧
       _order (erased n.2 i c) = rest ∧
       _erase_lru c = Some (MkRun (Return tt) (erased n.2 i c) []).
Proof.
  intros Hc Hq.
  destruct (linked_node c n Hc) as (i & Hi & Hh); [rewrite Hq; by left|].
  exists i. split_and!; [done..| |].
  - simpl. rewrite Hh, Hq. destruct n as [h k].
    apply (filter_front h k). rewrite <-Hq. by destruct Hc.
  - unfold _erase_lru, bind, order_front, cache_find, ret. rewrite Hq, Hi.
    rewrite (erase_iterator_run c n.2 i Hi)
      by exact (linked_handle_live c n.2 i Hc Hi).
    done.
Qed.

Lemma move_to_front_run c k i v :
  _cache c !! k = Some i → order i ∈ (_order c).*1 →
  _move_to_front (Some k) v c = Some (MkRun (Return tt) (promoted k i v c) []).
Proof.
  intros Hk Hh.
  unfold _move_to_front, bind, deref, ret, order_erase, order_insert_end,
    cache_assign, last_accessed_assign, modify, promoted, appended.
  rewrite Hk; simpl. by rewrite decide_True by done.
Qed.

(** ** Running the public members *)

Lemma with_last_accessed_id c k :
  _last_accessed c = Some k → with_last_accessed (Some k) c = c.
Proof. intros <-. by destruct c. Qed.

Lemma slot_valid_absent c k :
  slot_valid c → _cache c !! k = None → _last_accessed c ≠ Some k.
Proof.
  unfold slot_valid. intros Hs Hk Hla. rewrite Hla, Hk in Hs.
  by destruct Hs.
Qed.

Lemma find_present_run c k i :
  _cache c !! k = Some i →
  find k c = Some (MkRun (Return (Some k)) (with_last_accessed (Some k) c)
                     (if is_monitoring c then [Hit k] else [])).
Proof.
  intros Hk.
  unfold find, bind, _key_is_last_accessed, last_accessed_is, ret, cache_find,
    _register_hit_if_monitoring, register_hit, last_accessed_assign, modify,
    notify.
  case_bool_decide as Hla; simpl.
  - rewrite (with_last_accessed_id c k Hla). by destruct (is_monitoring c).
  - rewrite Hk; simpl.
    replace (is_monitoring (with_last_accessed (Some k) c))
      with (is_monitoring c) by done.
    by destruct (is_monitoring c).
Qed.

Lemma find_absent_run c k :
  slot_valid c → _cache c !! k = None →
  find k c = Some (MkRun (Return None) c
                     (if is_monitoring c then [Miss k] else [])).
Proof.
  intros Hs Hk. pose proof (slot_valid_absent c k Hs Hk) as Hla.
  unfold find, bind, _key_is_last_accessed, last_accessed_is, ret, cache_find,
    _register_miss_if_monitoring, register_miss, notify.
  rewrite bool_decide_eq_false_2 by done. rewrite Hk; simpl.
  by destruct (is_monitoring c).
Qed.

Lemma contains_present_run c k i :
  _cache c !! k = Some i →
  contains k c = Some (MkRun (Return true) (with_last_accessed (Some k) c)
                         (if is_monitoring c then [Hit k] else [])).
Proof.
  intros Hk.
  unfold contains, bind at 1, _key_is_last_accessed, last_accessed_is, ret.
  case_bool_decide as Hla; simpl.
  - unfold bind, _register_hit_if_monitoring, register_hit, notify, ret.
    rewrite (with_last_accessed_id c k Hla). by destruct (is_monitoring c).
  - unfold bind. rewrite (find_present_run c k i Hk).
    unfold last_accessed_assign, modify, ret; simpl.
    by rewrite app_nil_r.
Qed.

Lemma contains_absent_run c k :
  slot_valid c → _cache c !! k = None →
  contains k c = Some (MkRun (Return false) c
                         (if is_monitoring c then [Miss k] else [])).
Proof.
  intros Hs Hk. pose proof (slot_valid_absent c k Hs Hk) as Hla.
  unfold contains, bind, _key_is_last_accessed, last_accessed_is, ret.
  rewrite bool_decide_eq_false_2 by done.
  rewrite (find_absent_run c k Hs Hk); simpl. by rewrite app_nil_r.
Qed.

Lemma lookup_present_run c k i :
  _cache c !! k = Some i →
  lookup k c = Some (MkRun (Return (value i)) (with_last_accessed (Some k) c)
                       (if is_monitoring c then [Hit k] else [])).
Proof.
  intros Hk. unfold lookup, bind at 1, last_accessed_is, ret.
  case_bool_decide as Hla; simpl.
  - unfold bind, _register_hit_if_monitoring, register_hit, notify, ret,
      _value_for_last_accessed, last_accessed_entry, deref.
    rewrite (with_last_accessed_id c k Hla).
    destruct (is_monitoring c); simpl; unfold bind, ret; by rewrite Hla, Hk.
  - unfold bind. rewrite (find_present_run c k i Hk).
    unfold deref, ret; simpl. rewrite Hk; simpl.
    by rewrite app_nil_r.
Qed.

Lemma lookup_absent_run c k :
  slot_valid c → _cache c !! k = None →
  lookup k c = Some (MkRun (Throw KeyNotFound) c
                       (if is_monitoring c then [Miss k] else [])).
Proof.
  intros Hs Hk. pose proof (slot_valid_absent c k Hs Hk) as Hla.
  unfold lookup, bind, last_accessed_is, ret.
  rewrite bool_decide_eq_false_2 by done.
  rewrite (find_absent_run c k Hs Hk); simpl. unfold throw.
  by rewrite app_nil_r.
Qed.

Lemma insert_room_run c k v :
  _cache c !! k = None → size c ≠ _capacity c →
  insert k v c = Some (MkRun (Return (true, Some k)) (appended k v c) []).
Proof.
  intros Hk Hfull.
  unfold insert, bind, cache_find, get, ret, is_full, order_insert_end,
    cache_emplace, assert, last_accessed_assign, modify, appended.
  rewrite Hk. rewrite bool_decide_eq_false_2 by done. simpl.
  rewrite Hk. done.
Qed.

Lemma insert_full_run c k v n rest :
  linked c → _cache c !! k = None → size c = _capacity c →
  _order c = n :: rest →
  ∃ i, _cache c !! n.2 = Some i ∧ order i = n.1 ∧
       _order (erased n.2 i c) = rest ∧
       insert k v c = Some (MkRun (Return (true, Some k))
                              (appended k v (erased n.2 i c)) []).
Proof.
  intros Hc Hk Hfull Hq.
  destruct (erase_lru_run c n rest Hc Hq) as (i & Hi & Hh & Hrest & Hrun).
  exists i. split_and!; [done..|].
  unfold insert, bind, cache_find, get, ret, is_full.
  rewrite Hk. rewrite bool_decide_eq_true_2 by done. rewrite Hrun.
  unfold order_insert_end, cache_emplace, assert, last_accessed_assign,
    modify, bind, ret, appended; simpl.
  assert (delete n.2 (_cache c) !! k = None) as ->; [|done].
  apply lookup_delete_None. by right.
Qed.

(** A full cache that is empty has no front entry to evict. *)
Lemma insert_full_empty c k v :
  _cache c !! k = None → size c = _capacity c → _order c = [] →
  insert k v c = None.
Proof.
  intros Hk Hfull Hq.
  unfold insert, bind, cache_find, get, ret, is_full.
  rewrite Hk. rewrite bool_decide_eq_true_2 by done.
  unfold _erase_lru, bind, order_front. by rewrite Hq.
Qed.

Lemma insert_present_run c k i v :
  linked c → _cache c !! k = Some i →
  insert k v c = Some (MkRun (Return (false, Some k)) (promoted k i v c) []).
Proof.
  intros Hc Hk. unfold insert, bind, cache_find, ret. rewrite Hk.
  rewrite (move_to_front_run c k i v Hk)
    by exact (linked_handle_live c k i Hc Hk).
  done.
Qed.

Lemma emplace_insert c k v : emplace k v c = insert k v c.
Proof. reflexivity. Qed.

Lemma erase_absent_run c k :
  slot_valid c → _cache c !! k = None →
  erase k c = Some (MkRun (Return false) c []).
Proof.
  intros Hs Hk. pose proof (slot_valid_absent c k Hs Hk) as Hla.
  unfold erase, bind, last_accessed_is, ret, cache_find.
  rewrite bool_decide_eq_false_2 by done. by rewrite Hk.
Qed.

Lemma erase_present_run c k i :
  linked c → _cache c !! k = Some i →
  erase k c = Some (MkRun (Return true) (erased k i c) []).
Proof.
  intros Hc Hk. pose proof (linked_handle_live c k i Hc Hk) as Hh.
  unfold erase, bind at 1, last_accessed_is, ret.
  case_bool_decide as Hla; simpl.
  - unfold bind, last_accessed_entry, deref, ret. rewrite Hla, Hk. simpl.
    by rewrite (erase_key_run c k i Hh).
  - unfold bind, cache_find, ret. rewrite Hk.
    by rewrite (erase_iterator_run c k i Hk Hh).
Qed.

Lemma erase_unordered_run c k i :
  linked c → _cache c !! k = Some i →
  erase_unordered (Some k) c = Some (MkRun (Return true) (erased k i c) []).
Proof.
  intros Hc Hk. unfold erase_unordered, bind.
  by rewrite (erase_iterator_run c k i Hk (linked_handle_live c k i Hc Hk)).
Qed.

Lemma erase_dangling c k : _cache c !! k = None → _erase (Some k) c = None.
Proof.
  intros Hk. unfold _erase, bind, last_accessed_at, last_accessed_is, ret,
    invalidate, modify, deref.
  destruct (bool_decide _); simpl; by rewrite Hk.
Qed.

Lemma erase_ordered_run c h r :
  linked c → erase_ordered (Some h) c = Some r →
  ∃ k i, _cache c !! k = Some i ∧ order i = h ∧
         r = MkRun (Return true) (erased k i c) [].
Proof.
  intros Hc. unfold erase_ordered, bind at 1, ordered_key.
  destruct (list_find _ _) as [[j n]|] eqn:Hfind; [|done].
  apply list_find_Some in Hfind as (Hj & Hn & _).
  apply list_elem_of_lookup_2 in Hj.
  destruct (linked_node c n Hc Hj) as (i & Hi & Hh).
  unfold ret, bind, cache_find; simpl. rewrite Hi. unfold ret.
  rewrite (erase_iterator_run c n.2 i Hi (linked_handle_live c n.2 i Hc Hi)).
  intros [= <-]. exists n.2, i. split_and!; [done|congruence|done].
Qed.

Lemma clear_run c :
  clear c = Some (MkRun (Return tt)
                    (MkBaseCache ∅ [] (_stats c) None (_capacity c)) []).
Proof. reflexivity. Qed.

Lemma linked_cleared (s : option Statistics) n :
  linked (MkBaseCache (Key:=Key) (Value:=Value) ∅ [] s None n).
Proof.
  unfold linked, slot_valid; simpl.
  split_and!; [constructor|constructor|apply map_Forall_empty|done].
Qed.

(** *** The eviction loop *)

(** An eviction that returns removes exactly one entry of the hash index. *)
Lemma erase_lru_size c r :
  _erase_lru c = Some r →
  result r = Return tt ∧ events r = [] ∧ S (size (state r)) = size c.
Proof.
  unfold _erase_lru, bind at 1, order_front.
  destruct (_order c) as [|n q] eqn:Hq; [done|].
  unfold ret, bind at 1, cache_find.
  destruct (_cache c !! n.2) as [i|] eqn:Hi; simpl.
  - destruct (decide (order i ∈ (_order c).*1)) as [Hh|Hh].
    + rewrite (erase_iterator_run c n.2 i Hi Hh). intros [= <-]. simpl.
      split_and!; [done..|]. by apply size_erased.
    + unfold _erase, bind, last_accessed_at, last_accessed_is, ret,
        invalidate, modify, deref, order_erase.
      destruct (bool_decide _); simpl; rewrite Hi; simpl;
        by rewrite decide_False by done.
  - unfold _erase, bind, last_accessed_at, ret, deref. done.
Qed.

(** The loop never needs more than [size()] iterations: any two fuels of at
    least that many give the same run. *)
Lemma evict_while_fuel fuel1 fuel2 bound c :
  size c ≤ fuel1 → size c ≤ fuel2 →
  evict_while fuel1 bound c = evict_while fuel2 bound c.
Proof.
  revert fuel2 c. induction fuel1 as [|fuel1 IH]; intros fuel2 c H1 H2.
  - destruct fuel2; simpl; by rewrite !decide_False by lia.
  - destruct fuel2 as [|fuel2]; simpl.
    { by rewrite !decide_False by lia. }
    destruct (decide (bound < size c)); [|done].
    unfold bind. destruct (_erase_lru c) as [r|] eqn:Hr; [|done].
    destruct (erase_lru_size c r Hr) as (Hres & _ & Hsize).
    destruct r as [[[]|e] c1 ev1]; simpl in *; [|done].
    by rewrite (IH fuel2 c1) by lia.
Qed.

Lemma evict_while_run fuel bound c :
  linked c → size c - bound ≤ fuel →
  ∃ c', evict_while fuel bound c = Some (MkRun (Return tt) c' []) ∧
        linked c' ∧ size c' = size c `min` bound ∧
        _capacity c' = _capacity c ∧ _stats c' = _stats c.
Proof.
  revert c. induction fuel as [|fuel IH]; intros c Hc Hfuel.
  - exists c. simpl. rewrite decide_False by lia.
    split_and!; [done..|lia|done|done].
  - simpl. destruct (decide (bound < size c)) as [Hlt|Hge].
    + destruct (_order c) as [|n rest] eqn:Hq.
      { pose proof (linked_size c Hc) as Hsz. rewrite Hq in Hsz.
        unfold size in Hlt. simpl in Hsz. lia. }
      destruct (erase_lru_run c n rest Hc Hq) as (i & Hi & _ & _ & Hrun).
      pose proof (size_erased c n.2 i Hi) as Hsz.
      destruct (IH (erased n.2 i c)) as (c' & Hloop & Hc' & Hsz' & Hcap & Hst);
        [by apply linked_erased|lia|].
      exists c'. unfold bind. rewrite Hrun, Hloop.
      split_and!; [done..|lia|done|done].
    + exists c. split_and!; [done..|lia|done|done].
Qed.

Lemma shrink_run new_size c :
  linked c →
  ∃ c', shrink new_size c = Some (MkRun (Return tt) c' []) ∧
        linked c' ∧ size c' = size c `min` new_size ∧
        _capacity c' = _capacity c.
Proof.
  intros Hc. unfold shrink.
  destruct (decide (size c ≤ new_size)) as [Hle|Hgt].
  { exists c. split_and!; [done..|lia|done]. }
  destruct (decide (new_size = 0)) as [->|Hnz].
  { eexists. rewrite clear_run. split_and!; [done| | |done].
    - apply linked_cleared.
    - unfold size; simpl. rewrite map_size_empty. lia. }
  destruct (evict_while_run (size c) new_size c Hc) as (c' & ? & ? & ? & ? & ?);
    [lia|].
  by exists c'.
Qed.

Lemma capacity_set_run new_capacity c :
  linked c →
  ∃ c', capacity_set new_capacity c = Some (MkRun (Return tt) c' []) ∧
        linked c' ∧ size c' = size c `min` new_capacity ∧
        _capacity c' = new_capacity.
Proof.
  intros Hc. unfold capacity_set, bind.
  destruct (evict_while_run (size c) new_capacity c Hc)
    as (c' & -> & Hc' & Hsz & Hcap & Hst); [lia|].
  exists (with_capacity new_capacity c'). split_and!; done.
Qed.

(** ** Every public call keeps the invariant *)

Lemma wf_new n : wf (new (Key:=Key) (Value:=Value) (Statistics:=Statistics) n).
Proof.
  split; [apply linked_cleared|].
  unfold size, new; simpl. rewrite map_size_empty. lia.
Qed.

Lemma wf_with_last_accessed c k :
  wf c → is_Some (_cache c !! k) → wf (with_last_accessed (Some k) c).
Proof. intros [(? & ? & ? & ?) ?] Hk. by repeat split. Qed.

Lemma wf_with_stats c s : wf c → wf (with_stats s c).
Proof. intros [(? & ? & ? & ?) ?]. by repeat split. Qed.

Lemma wf_swap c d : wf c → wf d → wf (swap c d).1 ∧ wf (swap c d).2.
Proof. intros [(? & ? & ? & ?) ?] [(? & ? & ? & ?) ?]. by repeat split. Qed.

Lemma wf_erased c k i : wf c → _cache c !! k = Some i → wf (erased k i c).
Proof.
  intros [Hc Hcap] Hk. split; [by apply linked_erased|].
  pose proof (size_erased c k i Hk). simpl. lia.
Qed.

Lemma insert_returns c k v r :
  wf c → insert k v c = Some r →
  wf (state r) ∧ _capacity (state r) = _capacity c ∧
  events r = [] ∧ ∃ a, result r = Return a.
Proof.
  intros [Hc Hcap]. destruct (_cache c !! k) as [i|] eqn:Hk.
  - rewrite (insert_present_run c k i v Hc Hk). intros [= <-]; simpl.
    split; [split|by eauto].
    + by apply linked_promoted.
    + by rewrite (size_promoted c k i v Hk).
  - destruct (decide (size c = _capacity c)) as [Hfull|Hroom].
    + destruct (_order c) as [|n rest] eqn:Hq.
      { by rewrite (insert_full_empty c k v Hk Hfull Hq). }
      destruct (insert_full_run c k v n rest Hc Hk Hfull Hq)
        as (i & Hi & _ & _ & ->).
      assert (_cache (erased n.2 i c) !! k = None) as Hk'.
      { simpl. apply lookup_delete_None. by right. }
      intros [= <-]; simpl. split; [split|by eauto].
      * apply linked_appended; [by apply linked_erased|done].
      * rewrite (size_appended _ k v Hk').
        pose proof (size_erased c n.2 i Hi). simpl. lia.
    + rewrite (insert_room_run c k v Hk Hroom). intros [= <-]; simpl.
      split; [split|by eauto].
      * by apply linked_appended.
      * rewrite (size_appended c k v Hk). simpl. lia.
Qed.

Lemma insert_wf c k v r : wf c → insert k v c = Some r → wf (state r).
Proof. intros Hwf Hr. by destruct (insert_returns c k v r Hwf Hr). Qed.

Lemma emplace_range_insert_range range c :
  emplace_range range c = insert_range range c.
Proof.
  revert c. induction range as [|p range IH]; intros c; [done|].
  simpl. unfold bind. rewrite emplace_insert.
  destruct (insert p.1 p.2 c) as [[[a|e] c1 ev1]|]; [|done..].
  by rewrite IH.
Qed.

Lemma insert_range_returns range c r :
  wf c → insert_range range c = Some r →
  wf (state r) ∧ _capacity (state r) = _capacity c.
Proof.
  revert c r. induction range as [|p range IH]; intros c r Hwf; simpl.
  - by intros [= <-].
  - unfold bind. destruct (insert p.1 p.2 c) as [r1|] eqn:Hr1; [|done].
    destruct (insert_returns c _ _ r1 Hwf Hr1) as (Hwf1 & Hcap1 & _ & a & Ha).
    destruct r1 as [res1 c1 ev1]; simpl in *. subst res1.
    destruct (insert_range range c1) as [r2|] eqn:Hr2; [|done].
    destruct (IH c1 r2 Hwf1 Hr2) as [Hwf2 Hcap2].
    destruct r2 as [res2 c2 ev2]; simpl in *. intros [= <-]; simpl.
    split; [done|congruence].
Qed.

Lemma assign_returns range c r :
  wf c → assign range c = Some r →
  wf (state r) ∧ _capacity (state r) = _capacity c.
Proof.
  intros [Hc Hcap]. unfold assign, bind. rewrite clear_run.
  destruct (insert_range range _) as [r2|] eqn:Hr2; [|done].
  apply insert_range_returns in Hr2 as [Hwf2 Hcap2].
  - destruct r2 as [res2 c2 ev2]; simpl in *. by intros [= <-].
  - split; [apply linked_cleared|].
    unfold size; simpl. rewrite map_size_empty. lia.
Qed.

Lemma assign_move_assign range c : assign_move range c = assign range c.
Proof.
  unfold assign_move, assign, bind. rewrite clear_run.
  by rewrite emplace_range_insert_range.
Qed.

Lemma call_wf {A} (op : Call A) c r :
  wf c → call op c = Some r → wf (state r).
Proof.
  intros Hwf. pose proof Hwf as [Hc Hcap]. pose proof Hc as (_ & _ & _ & Hs).
  destruct op as [k|k|k|k v|k v|l|l|l|k|[k|]|[h|]| |n|n|s| |]; cbv [call].
  - destruct (_cache c !! k) as [i|] eqn:Hk.
    + rewrite (contains_present_run c k i Hk). intros [= <-]; simpl.
      by apply wf_with_last_accessed.
    + rewrite (contains_absent_run c k Hs Hk). by intros [= <-].
  - destruct (_cache c !! k) as [i|] eqn:Hk.
    + rewrite (lookup_present_run c k i Hk). intros [= <-]; simpl.
      by apply wf_with_last_accessed.
    + rewrite (lookup_absent_run c k Hs Hk). by intros [= <-].
  - destruct (_cache c !! k) as [i|] eqn:Hk.
    + rewrite (find_present_run c k i Hk). intros [= <-]; simpl.
      by apply wf_with_last_accessed.
    + rewrite (find_absent_run c k Hs Hk). by intros [= <-].
  - by apply insert_wf.
  - rewrite emplace_insert. by apply insert_wf.
  - intros Hr. by destruct (insert_range_returns l c r Hwf Hr).
  - intros Hr. by destruct (assign_returns l c r Hwf Hr).
  - rewrite assign_move_assign. intros Hr.
    by destruct (assign_returns l c r Hwf Hr).
  - destruct (_cache c !! k) as [i|] eqn:Hk.
    + rewrite (erase_present_run c k i Hc Hk). intros [= <-]; simpl.
      by apply wf_erased.
    + rewrite (erase_absent_run c k Hs Hk). by intros [= <-].
  - destruct (_cache c !! k) as [i|] eqn:Hk.
    + rewrite (erase_unordered_run c k i Hc Hk). intros [= <-]; simpl.
      by apply wf_erased.
    + unfold erase_unordered, bind. by rewrite (erase_dangling c k Hk).
  - by intros [= <-].
  - intros Hr. destruct (erase_ordered_run c h r Hc Hr) as (k & i & Hk & _ & ->).
    by apply wf_erased.
  - by intros [= <-].
  - rewrite clear_run. intros [= <-]; simpl. split; [apply linked_cleared|].
    unfold size; simpl. rewrite map_size_empty. lia.
  - destruct (shrink_run n c Hc) as (c' & -> & Hc' & Hsz & Hcap').
    intros [= <-]; simpl. split; [done|lia].
  - destruct (capacity_set_run n c Hc) as (c' & -> & Hc' & Hsz & Hcap').
    intros [= <-]; simpl. split; [done|lia].
  - intros [= <-]. by apply wf_with_stats.
  - intros [= <-]. by apply wf_with_stats.
  - unfold statistics, stats_get, is_monitoring.
    destruct (_stats c); simpl; by intros [= <-].
Qed.

Lemma insert_defined c k v :
  wf c → 0 < _capacity c → is_Some (insert k v c).
Proof.
  intros [Hc Hcap] Hpos. destruct (_cache c !! k) as [i|] eqn:Hk.
  - by rewrite (insert_present_run c k i v Hc Hk).
  - destruct (decide (size c = _capacity c)) as [Hfull|Hroom].
    + destruct (_order c) as [|n rest] eqn:Hq.
      { pose proof (linked_size c Hc) as Hsz. rewrite Hq in Hsz.
        unfold size in Hfull. simpl in Hsz. lia. }
      by destruct (insert_full_run c k v n rest Hc Hk Hfull Hq)
        as (i & _ & _ & _ & ->).
    + by rewrite (insert_room_run c k v Hk Hroom).
Qed.

Lemma insert_range_defined range c :
  wf c → 0 < _capacity c → is_Some (insert_range range c).
Proof.
  revert c. induction range as [|p range IH]; intros c Hwf Hpos; [done|].
  simpl. unfold bind.
  destruct (insert_defined c p.1 p.2 Hwf Hpos) as [r1 Hr1].
  rewrite Hr1.
  destruct (insert_returns c _ _ r1 Hwf Hr1) as (Hwf1 & Hcap1 & _ & a & Ha).
  destruct r1 as [res1 c1 ev1]; simpl in *. subst res1.
  destruct (IH c1 Hwf1) as [[res2 c2 ev2] ->]; [lia|done].
Qed.

Lemma assign_defined range c :
  wf c → 0 < _capacity c → is_Some (assign range c).
Proof.
  intros Hwf Hpos. unfold assign, bind. rewrite clear_run.
  edestruct (insert_range_defined range) as [[res2 c2 ev2] ->]; [| |done].
  - split; [apply linked_cleared|].
    unfold size; simpl. rewrite map_size_empty. lia.
  - done.
Qed.

(** With a positive capacity, every public call on valid arguments returns
    or throws: the invariant of [call_wf] is not kept vacuously. *)
Lemma call_defined {A} (op : Call A) c :
  wf c → 0 < _capacity c → valid_call op c → is_Some (call op c).
Proof.
  intros Hwf Hpos. pose proof Hwf as [Hc Hcap].
  pose proof Hc as (_ & _ & _ & Hs).
  destruct op as [k|k|k|k v|k v|l|l|l|k|[k|]|[h|]| |n|n|s| |];
    cbv [call valid_call]; intros Hvalid.
  - destruct (_cache c !! k) as [i|] eqn:Hk.
    + by rewrite (contains_present_run c k i Hk).
    + by rewrite (contains_absent_run c k Hs Hk).
  - destruct (_cache c !! k) as [i|] eqn:Hk.
    + by rewrite (lookup_present_run c k i Hk).
    + by rewrite (lookup_absent_run c k Hs Hk).
  - destruct (_cache c !! k) as [i|] eqn:Hk.
    + by rewrite (find_present_run c k i Hk).
    + by rewrite (find_absent_run c k Hs Hk).
  - by apply insert_defined.
  - rewrite emplace_insert. by apply insert_defined.
  - by apply insert_range_defined.
  - by apply assign_defined.
  - rewrite assign_move_assign. by apply assign_defined.
  - destruct (_cache c !! k) as [i|] eqn:Hk.
    + by rewrite (erase_present_run c k i Hc Hk).
    + by rewrite (erase_absent_run c k Hs Hk).
  - destruct Hvalid as [i Hk]. by rewrite (erase_unordered_run c k i Hc Hk).
  - done.
  - apply list_elem_of_fmap in Hvalid as (n & -> & Hn).
    destruct (linked_node c n Hc Hn) as (i & Hi & Hh).
    unfold erase_ordered, bind at 1, ordered_key.
    destruct (list_find_elem_of (λ m : QueueIterator * Key, m.1 = n.1)
                (_order c) n Hn eq_refl) as [[j m] Hfind].
    rewrite Hfind.
    apply list_find_Some in Hfind as (Hj & Hm & _).
    apply list_elem_of_lookup_2 in Hj.
    destruct (linked_node c m Hc Hj) as (i' & Hi' & Hh').
    unfold ret, bind, cache_find; simpl. rewrite Hi'. unfold ret.
    by rewrite (erase_iterator_run c m.2 i' Hi'
                  (linked_handle_live c m.2 i' Hc Hi')).
  - done.
  - by rewrite clear_run.
  - by destruct (shrink_run n c Hc) as (c' & -> & _).
  - by destruct (capacity_set_run n c Hc) as (c' & -> & _).
  - done.
  - done.
  - unfold statistics, stats_get, is_monitoring.
    by destruct (_stats c).
Qed.

Lemma reachable_wf c : reachable c → wf c.
Proof.
  induction 1 as [n|A op c r _ IH Hr|c d _ IHc _ IHd|c d _ IHc _ IHd].
  - apply wf_new.
  - by apply (call_wf op c).
  - by apply wf_swap.
  - by apply wf_swap.
Qed.

(** ** Observations of the closed forms *)

Lemma recency_appended c k v : recency (appended k v c) = recency c ++ [k].
Proof. unfold recency, keys, appended; simpl. by rewrite fmap_app. Qed.

Lemma contents_appended c k v :
  contents (appended k v c) = <[k := v]> (contents c).
Proof. unfold contents, appended; simpl. by rewrite fmap_insert. Qed.

Lemma contents_erased c k i : contents (erased k i c) = delete k (contents c).
Proof. unfold contents, erased; simpl. by rewrite fmap_delete. Qed.

Lemma recency_length c : length (recency c) = length (_order c).
Proof. unfold recency, keys. by rewrite length_fmap. Qed.

(** ** The invariants of a reachable cache *)

(** C1. After every public operation (insert, emplace, erase, clear, shrink,
    capacity-set, swap, and the lookups), starting from any freshly
    constructed cache, [size() <= capacity()] holds and the hash index and
    the recency sequence contain exactly the same number of entries. *)
Theorem reachable_size_capacity c :
  reachable c →
  size c ≤ capacity c ∧ base.size (_cache c) = length (_order c).
Proof.
  intros [Hc Hcap]%reachable_wf. split; [done|]. by apply linked_size.
Qed.

(** ** Insertion *)

(** C2. [insert(key, value)] for a key that is not present reports an
    insertion and appends the key at the newest end of the recency sequence.
    With room left it evicts nothing and the size grows by exactly one; in a
    full cache it first evicts exactly the entry at the front of the recency
    sequence and the size is unchanged. *)
Theorem insert_absent_key c key v :
  wf c → _cache c !! key = None →
  (size c < capacity c →
     ∃ r, insert key v c = Some r ∧
          result r = Return (true, Some key) ∧
          recency (state r) = recency c ++ [key] ∧
          contents (state r) = <[key := v]> (contents c) ∧
          size (state r) = S (size c)) ∧
  (size c = capacity c → ∀ front rest, recency c = front :: rest →
     ∃ r, insert key v c = Some r ∧
          result r = Return (true, Some key) ∧
          recency (state r) = rest ++ [key] ∧
          contents (state r) = <[key := v]> (delete front (contents c)) ∧
          size (state r) = size c).
Proof.
  intros [Hc Hcap] Hk. unfold capacity. split.
  - intros Hroom. eexists. split; [apply insert_room_run; [done|lia]|].
    simpl. split; [done|]. split; [apply recency_appended|].
    split; [apply contents_appended|]. by apply size_appended.
  - intros Hfull front rest Hfront.
    unfold recency, keys in Hfront.
    destruct (_order c) as [|n q] eqn:Hq; [done|].
    rewrite fmap_cons in Hfront. injection Hfront as <- <-.
    destruct (insert_full_run c key v n q Hc Hk Hfull Hq)
      as (i & Hi & _ & Hrest & Hrun).
    eexists. split; [exact Hrun|]. simpl. split; [done|]. split; [|split].
    + rewrite recency_appended. unfold recency. by rewrite Hrest.
    + by rewrite contents_appended, contents_erased.
    + rewrite size_appended by (simpl; apply lookup_delete_None; by right).
      pose proof (size_erased c n.2 i Hi). lia.
Qed.

(** C3. [insert(key, value)] for a key that is already present never changes
    the size, evicts nothing, overwrites the stored value, moves the key to
    the newest end of the recency sequence, and reports a replacement. *)
Theorem insert_present_key c key v i :
  wf c → _cache c !! key = Some i →
  ∃ r, insert key v c = Some r ∧
       result r = Return (false, Some key) ∧
       size (state r) = size c ∧
       contents (state r) = <[key := v]> (contents c) ∧
       dom (contents (state r)) = dom (contents c) ∧
       recency (state r) = filter (λ k, k ≠ key) (recency c) ++ [key].
Proof.
  intros [Hc _] Hk. eexists. split; [by apply insert_present_run|].
  simpl. split; [done|]. split; [|split; [|split]].
  - by apply (size_promoted c key i).
  - unfold promoted. by rewrite contents_appended.
  - unfold promoted. rewrite contents_appended. unfold contents; simpl.
    rewrite dom_insert_L.
    apply subseteq_union_1_L, singleton_subseteq_l.
    apply elem_of_dom. rewrite lookup_fmap, Hk. by eexists.
  - unfold promoted. rewrite recency_appended. f_equal.
    unfold recency at 1; simpl. by apply recency_erase.
Qed.

(** C4 (amended). A cache of capacity 0 holds no entry and is full, so every
    insert of a key finds it full and starts by evicting the front of the
    recency sequence; that sequence is empty, [front()] has no entry to
    return, and the insert, the very first one included, has no defined
    behaviour. *)
Theorem insert_capacity_zero c key v :
  wf c → capacity c = 0 →
  size c = 0 ∧ _cache c !! key = None ∧ is_full c = true ∧
  recency c = [] ∧ insert key v c = None.
Proof.
  intros [Hc Hcap] Hzero. unfold capacity in Hzero.
  assert (size c = 0) as Hsize by lia.
  assert (_cache c !! key = None) as Hk.
  { apply map_size_empty_inv in Hsize. by rewrite Hsize. }
  assert (_order c = []) as Hq.
  { apply length_zero_iff_nil. rewrite <-(linked_size c Hc). exact Hsize. }
  split_and!; try done.
  - unfold is_full. apply bool_decide_eq_true_2. lia.
  - unfold recency. by rewrite Hq.
  - apply insert_full_empty; [done|lia|done].
Qed.

(** ** Lookup *)

(** C5. For a key that is present, [contains(key)] and [lookup(key)] leave the
    recency sequence (and the hash index) unchanged: reading does not
    promote. *)
Theorem lookup_keeps_recency c key i :
  _cache c !! key = Some i →
  (∃ r, contains key c = Some r ∧ result r = Return true ∧
        _order (state r) = _order c ∧ _cache (state r) = _cache c) ∧
  (∃ r, lookup key c = Some r ∧ result r = Return (value i) ∧
        _order (state r) = _order c ∧ _cache (state r) = _cache c).
Proof.
  intros Hk. split; eexists.
  - split; [exact (contains_present_run c key i Hk)|]. done.
  - split; [exact (lookup_present_run c key i Hk)|]. done.
Qed.

(** C6. While a statistics object is attached, every [contains(key)] and
    every [lookup(key)] makes exactly one call on it: one hit when the key is
    present, one miss when it is absent, whichever path served the request. *)
Theorem lookup_notifies_once c key :
  wf c → is_monitoring c = true →
  (∃ r, contains key c = Some r ∧
        events r = match _cache c !! key with
                   | Some _ => [Hit key]
                   | None => [Miss key]
                   end) ∧
  (∃ r, lookup key c = Some r ∧
        events r = match _cache c !! key with
                   | Some _ => [Hit key]
                   | None => [Miss key]
                   end).
Proof.
  intros [(_ & _ & _ & Hs) _] Hmon.
  destruct (_cache c !! key) as [i|] eqn:Hk; split; eexists.
  - split; [exact (contains_present_run c key i Hk)|]. simpl. by rewrite Hmon.
  - split; [exact (lookup_present_run c key i Hk)|]. simpl. by rewrite Hmon.
  - split; [by apply contains_absent_run|]. simpl. by rewrite Hmon.
  - split; [by apply lookup_absent_run|]. simpl. by rewrite Hmon.
Qed.

(** ** Removal *)

(** [BaseCache::clear] empties both containers and invalidates the slot. *)
Lemma clear_empties_and_invalidates c :
  ∃ r, clear c = Some r ∧ result r = Return tt ∧
       _cache (state r) = ∅ ∧ _order (state r) = [] ∧ size (state r) = 0 ∧
       _last_accessed (state r) = None ∧ slot_valid (state r) ∧
       _capacity (state r) = _capacity c.
Proof.
  eexists. split; [apply clear_run|]. simpl.
  by split_and!.
Qed.

(** C8. [erase(key)] of a key that is not present returns false and leaves
    the cache unchanged; [erase(key)] of a present key removes exactly that
    entry from the hash index and from the recency sequence, decreases the
    size by exactly one, and returns true. *)
Theorem erase_by_key c key :
  wf c →
  (_cache c !! key = None → erase key c = Some (MkRun (Return false) c [])) ∧
  (∀ i, _cache c !! key = Some i →
     ∃ r, erase key c = Some r ∧ result r = Return true ∧
          _cache (state r) = delete key (_cache c) ∧
          recency (state r) = filter (λ k, k ≠ key) (recency c) ∧
          S (length (recency (state r))) = length (recency c) ∧
          S (size (state r)) = size c).
Proof.
  intros [Hc _]. pose proof Hc as (_ & _ & _ & Hs). split.
  - intros Hk. by apply erase_absent_run.
  - intros i Hk. eexists. split; [by apply erase_present_run|]. simpl.
    pose proof (size_erased c key i Hk) as Hsize.
    split; [done|]. split; [done|]. split; [by apply recency_erase|].
    split; [|done].
    rewrite !recency_length.
    rewrite <-(linked_size c Hc).
    rewrite <-(linked_size (erased key i c)) by by apply linked_erased.
    exact Hsize.
Qed.

(** ** Errors *)

(** C9. [lookup(key)] of an absent key fails with [KeyNotFound] and
    [statistics()] without an attached object fails with [NotMonitoring];
    either failure leaves the cache as it was. *)
Theorem failures_leave_cache_unchanged c key :
  wf c →
  (_cache c !! key = None →
     ∃ r, lookup key c = Some r ∧ result r = Throw KeyNotFound ∧ state r = c) ∧
  (_stats c = None →
     ∃ r, statistics c = Some r ∧ result r = Throw NotMonitoring ∧
          state r = c ∧ events r = []).
Proof.
  intros [(_ & _ & _ & Hs) _]. split.
  - intros Hk. eexists. split; [by apply lookup_absent_run|]. done.
  - intros Hst. unfold statistics, is_monitoring. rewrite Hst.
    by eexists.
Qed.

(** ** Equality *)

Lemma map_eq_op_contents (m1 m2 : gmap Key Info) :
  map_eq_op m1 m2 = true ↔ value <$> m1 = value <$> m2.
Proof.
  unfold map_eq_op. rewrite andb_true_iff, bool_decide_eq_true.
  rewrite <-Is_true_true, forallb_True, Forall_forall. split.
  - intros [Hsize Hall]. apply map_subseteq_size_eq.
    + apply map_subseteq_spec. intros k v.
      rewrite !lookup_fmap. intros (i & Hi & ->)%fmap_Some.
      specialize (Hall (k, i)). rewrite elem_of_map_to_list in Hall.
      specialize (Hall Hi). simpl in Hall.
      destruct (m2 !! k) as [j|]; [|done]. simpl.
      unfold information_eq in Hall. apply bool_decide_unpack in Hall.
      by rewrite Hall.
    + rewrite !map_size_fmap. lia.
  - intros Heq. split.
    + by rewrite <-(map_size_fmap value m1), Heq, map_size_fmap.
    + intros [k i] Hi%elem_of_map_to_list. simpl.
      assert ((value <$> m2) !! k = Some (value i)) as Hk.
      { by rewrite <-Heq, lookup_fmap, Hi. }
      rewrite lookup_fmap in Hk. apply fmap_Some in Hk as (j & -> & Hj).
      unfold information_eq. by apply bool_decide_pack.
Qed.

(** [operator==] decides equality of content and of recency order (I5). *)
Lemma operator_eq_spec c d :
  operator_eq c d = true ↔ contents c = contents d ∧ recency c = recency d.
Proof.
  unfold operator_eq, contents, recency.
  rewrite <-map_eq_op_contents.
  unfold queue_eq_op.
  destruct (map_eq_op (_cache c) (_cache d)); simpl; [|intuition congruence].
  case_bool_decide; simpl; intuition congruence.
Qed.

(** C10. [operator==] compares the hash-index content and the recency order
    and nothing else: it returns true exactly when the two caches hold equal
    key/value pairs in the same recency order, and its result is the same
    whatever the capacities, last-accessed slots and statistics objects of
    the two caches are. *)
Theorem equality_is_content_and_order c d :
  (operator_eq c d = true
   ↔ contents c = contents d ∧ recency c = recency d) ∧
  (∀ (s1 s2 : option Statistics) (l1 l2 : option Key) (n1 n2 : nat),
     operator_eq (MkBaseCache (_cache c) (_order c) s1 l1 n1)
                 (MkBaseCache (_cache d) (_order d) s2 l2 n2)
     = operator_eq c d).
Proof.
  split; [apply operator_eq_spec|]. intros s1 s2 l1 l2 n1 n2.
  destruct (operator_eq c d) eqn:Heq.
  - apply operator_eq_spec in Heq as [Hm Hq]. by apply operator_eq_spec.
  - apply not_true_iff_false. apply not_true_iff_false in Heq.
    intros Heq'. apply Heq. apply operator_eq_spec in Heq' as [Hm Hq].
    by apply operator_eq_spec.
Qed.

End Properties.

(** * The legacy class *)

Section Legacy.
Context {Key : Type} `{Countable Key}.
Context {Value : Type}.

Local Abbreviation Legacy := (@AbstractCache.AbstractCache Key _ _ Value).

(** [AbstractCache::clear] empties both containers and keeps the slot. *)
Lemma legacy_clear_keeps_slot (c : Legacy) :
  AbstractCache._cache (AbstractCache.clear c) = ∅ ∧
  AbstractCache._order (AbstractCache.clear c) = [] ∧
  AbstractCache._last_accessed (AbstractCache.clear c)
    = AbstractCache._last_accessed c.
Proof. done. Qed.

(** Its sibling [AbstractCache::_erase] does invalidate the slot when it
    removes the entry the slot names. *)
Lemma legacy_erase_invalidates (c c' : Legacy) k :
  AbstractCache._last_accessed c = Some k →
  AbstractCache._erase (Some k) c = Some c' →
  AbstractCache._last_accessed c' = None.
Proof.
  intros Hla. unfold AbstractCache._erase.
  destruct (AbstractCache._cache c !! k) as [i|]; [|done].
  rewrite bool_decide_eq_true_2 by done.
  destruct (decide _); [|done]. by intros [= <-].
Qed.

End Legacy.

(** * The claims at concrete caches *)

Section Concrete.
Import Examples.

Lemma reachable_after {A} (op : Call A) (c : Cache) :
  reachable c → reachable (after (call op) c).
Proof.
  intros Hc. unfold after. destruct (call op c) as [r|] eqn:Hr; [|done].
  by apply (reachable_call op c r).
Qed.

Lemma wf_two_of_two : wf two_of_two.
Proof. apply (bool_decide_unpack _). vm_compute. exact I. Qed.

Lemma wf_monitored : wf monitored.
Proof. apply (bool_decide_unpack _). vm_compute. exact I. Qed.

(** Spec 8, scenario 1: with capacity 2, inserting a third key evicts the
    oldest one. *)
Example scenario_evict_oldest :
  recency two_of_two = [1; 2] ∧
  recency (after (insert 3 30) two_of_two) = [2; 3] ∧
  contents (after (insert 3 30) two_of_two) !! 1 = None.
Proof. vm_compute. done. Qed.

(** Spec 8, scenario 2: re-inserting a key promotes it and replaces its
    value. *)
Example scenario_reinsert :
  let c := after (insert 1 99) (after (insert 3 30) two_of_three) in
  recency c = [2; 3; 1] ∧ contents c !! 1 = Some 99 ∧ size c = 3.
Proof. vm_compute. done. Qed.

(** Spec 8, scenario 5: shrinking keeps the newest entries. *)
Example scenario_shrink :
  let c := after (shrink 1) (after (insert 3 30) two_of_three) in
  recency c = [3] ∧ size c = 1.
Proof. vm_compute. done. Qed.

Lemma reachable_size_capacity_witness :
  reachable two_of_two ∧
  size two_of_two ≤ capacity two_of_two ∧
  base.size (_cache two_of_two) = length (_order two_of_two).
Proof.
  assert (reachable two_of_two) as Hr.
  { apply (reachable_after (CallInsert 2 20)).
    apply (reachable_after (CallInsert 1 10)).
    apply reachable_new. }
  split; [exact Hr|]. exact (reachable_size_capacity two_of_two Hr).
Defined.

Lemma insert_absent_key_witness :
  wf two_of_two ∧ _cache two_of_two !! 3 = None ∧
  ∃ r, insert 3 30 two_of_two = Some r ∧
       result r = Return (true, Some 3) ∧
       recency (state r) = [2; 3] ∧
       contents (state r) = <[3 := 30]> (delete 1 (contents two_of_two)) ∧
       size (state r) = size two_of_two.
Proof.
  assert (_cache two_of_two !! 3 = None) as Hk by (vm_compute; reflexivity).
  split; [exact wf_two_of_two|]. split; [exact Hk|].
  destruct (insert_absent_key two_of_two 3 30 wf_two_of_two Hk) as [_ Hfull].
  apply (Hfull eq_refl 1 [2] eq_refl).
Defined.

Lemma insert_present_key_witness :
  wf two_of_two ∧ _cache two_of_two !! 1 = Some (MkInformation 1 10) ∧
  ∃ r, insert 1 99 two_of_two = Some r ∧
       result r = Return (false, Some 1) ∧
       size (state r) = size two_of_two ∧
       contents (state r) = <[1 := 99]> (contents two_of_two) ∧
       dom (contents (state r)) = dom (contents two_of_two) ∧
       recency (state r) = filter (λ k, k ≠ 1) (recency two_of_two) ++ [1].
Proof.
  assert (_cache two_of_two !! 1 = Some (MkInformation 1 10)) as Hk
    by (vm_compute; reflexivity).
  split; [exact wf_two_of_two|]. split; [exact Hk|].
  exact (insert_present_key two_of_two 1 99 _ wf_two_of_two Hk).
Defined.

(** C4 as stated fails: the empty cache of capacity 0 is full, its recency
    sequence has no front entry, and its first insert does not return. *)
Lemma insert_capacity_zero_counterexample :
  is_full (new 0 : Cache) = true ∧ recency (new 0 : Cache) = [] ∧
  ¬ ∃ r, insert 1 10 (new 0 : Cache) = Some r.
Proof.
  split; [done|]. split; [done|]. intros [r Hr]. vm_compute in Hr. done.
Qed.

Lemma insert_capacity_zero_witness :
  wf (new 0 : Cache) ∧ capacity (new 0 : Cache) = 0 ∧
  insert 1 10 (new 0 : Cache) = None.
Proof.
  split; [apply wf_new|]. split; [reflexivity|].
  apply (insert_capacity_zero (new 0) 1 10 (wf_new 0) eq_refl).
Defined.

Lemma lookup_keeps_recency_witness :
  _cache two_of_two !! 1 = Some (MkInformation 1 10) ∧
  (∃ r, contains 1 two_of_two = Some r ∧ result r = Return true ∧
        _order (state r) = _order two_of_two ∧
        _cache (state r) = _cache two_of_two) ∧
  (∃ r, lookup 1 two_of_two = Some r ∧ result r = Return 10 ∧
        _order (state r) = _order two_of_two ∧
        _cache (state r) = _cache two_of_two).
Proof.
  assert (_cache two_of_two !! 1 = Some (MkInformation 1 10)) as Hk
    by (vm_compute; reflexivity).
  split; [exact Hk|].
  exact (lookup_keeps_recency two_of_two 1 _ Hk).
Defined.

Lemma lookup_notifies_once_witness :
  wf monitored ∧ is_monitoring monitored = true ∧
  (∃ r, contains 1 monitored = Some r ∧ events r = [Hit 1]) ∧
  (∃ r, lookup 9 monitored = Some r ∧ events r = [Miss 9]).
Proof.
  split; [exact wf_monitored|]. split; [reflexivity|]. split.
  - apply (lookup_notifies_once monitored 1 wf_monitored eq_refl).
  - apply (lookup_notifies_once monitored 9 wf_monitored eq_refl).
Defined.

(** C7 fails on the legacy class: [AbstractCache::clear] on a cache whose
    slot names key 1 empties the cache and leaves the slot naming key 1,
    which is no longer present. *)
Theorem legacy_clear_breaks_slot :
  AbstractCache.slot_valid legacy ∧
  AbstractCache.size (AbstractCache.clear legacy) = 0 ∧
  AbstractCache._last_accessed (AbstractCache.clear legacy) = Some 1 ∧
  ¬ AbstractCache.slot_valid (AbstractCache.clear legacy).
Proof.
  split; [by eexists|]. split; [done|]. split; [done|].
  unfold AbstractCache.slot_valid; simpl. rewrite lookup_empty.
  by intros [? ?].
Qed.

Lemma erase_by_key_witness :
  wf two_of_two ∧
  erase 7 two_of_two = Some (MkRun (Return false) two_of_two []) ∧
  ∃ r, erase 1 two_of_two = Some r ∧ result r = Return true ∧
       recency (state r) = [2] ∧ S (size (state r)) = size two_of_two.
Proof.
  split; [exact wf_two_of_two|].
  destruct (erase_by_key two_of_two 7 wf_two_of_two) as [Habsent _].
  destruct (erase_by_key two_of_two 1 wf_two_of_two) as [_ Hpresent].
  split; [apply Habsent; vm_compute; reflexivity|].
  destruct (Hpresent (MkInformation 1 10)) as (r & Hr & Hres & _ & Hq & _ & Hs);
    [vm_compute; reflexivity|].
  exists r. done.
Defined.

Lemma failures_leave_cache_unchanged_witness :
  wf two_of_two ∧
  (∃ r, lookup 7 two_of_two = Some r ∧ result r = Throw KeyNotFound ∧
        state r = two_of_two) ∧
  (∃ r, statistics two_of_two = Some r ∧ result r = Throw NotMonitoring ∧
        state r = two_of_two ∧ events r = []).
Proof.
  split; [exact wf_two_of_two|].
  destruct (failures_leave_cache_unchanged two_of_two 7 wf_two_of_two)
    as [Hlookup Hstats].
  split; [apply Hlookup; vm_compute; reflexivity|].
  apply Hstats. vm_compute. reflexivity.
Defined.

Lemma equality_is_content_and_order_witness :
  _capacity two_of_two ≠ _capacity other_two ∧
  _last_accessed two_of_two ≠ _last_accessed other_two ∧
  _stats two_of_two ≠ _stats other_two ∧
  _order two_of_two ≠ _order other_two ∧
  operator_eq two_of_two other_two = true ∧
  operator_eq two_of_two reordered_two = false ∧
  operator_eq two_of_two revalued_two = false.
Proof.
  split; [vm_compute; lia|]. split; [vm_compute; congruence|].
  split; [vm_compute; congruence|]. split; [vm_compute; congruence|].
  split; [|split].
  - apply (proj1 (equality_is_content_and_order two_of_two other_two)).
    split; vm_compute; reflexivity.
  - apply not_true_iff_false. intros Heq.
    apply (proj1 (equality_is_content_and_order two_of_two reordered_two))
      in Heq as [_ Hq].
    vm_compute in Hq. discriminate Hq.
  - apply not_true_iff_false. intros Heq.
    apply (proj1 (equality_is_content_and_order two_of_two revalued_two))
      in Heq as [Hm _].
    assert (contents two_of_two !! 2 = contents revalued_two !! 2) as Hv
      by (by rewrite Hm).
    vm_compute in Hv. discriminate Hv.
Defined.

End Concrete.

(** * Further properties of the cache *)

Section Further.
Context {Key : Type} `{Countable Key}.
Context {Value : Type} `{EqDecision Value}.
Context {Statistics : Type}.

Local Abbreviation Cache := (@BaseCache Key _ _ Value Statistics).
Local Abbreviation Info := (@Information Value).
Implicit Types (c d : Cache) (k key : Key) (v : Value) (i : Info).

(** ** More on the structural invariant *)

Lemma linked_in_recency c k :
  linked c → k ∈ recency c ↔ is_Some (_cache c !! k).
Proof.
  intros Hc. rewrite <-elem_of_dom, (linked_dom c Hc).
  by rewrite elem_of_list_to_set.
Qed.

Lemma linked_slot_in_recency c k :
  linked c → _last_accessed c = Some k → k ∈ recency c.
Proof.
  intros Hc Hla. apply (linked_in_recency c k Hc).
  destruct Hc as (_ & _ & _ & Hs). unfold slot_valid in Hs. by rewrite Hla in Hs.
Qed.

(** X1. The invariants I3 and I4 of every cache built from a constructor by
    the member calls of [Call] and by [swap] (copy and move construction are
    not modelled): the keys of the recency sequence are distinct and are
    exactly the keys of the hash index, and a populated last-accessed slot
    names one of them. *)
Theorem reachable_index_matches_sequence c :
  reachable c →
  NoDup (recency c) ∧
  dom (contents c) = list_to_set (recency c) ∧
  (∀ k, _last_accessed c = Some k → k ∈ recency c ∧ is_Some (contents c !! k)).
Proof.
  intros [Hc _]%reachable_wf. split; [by apply linked_keys_NoDup|]. split.
  - unfold contents. rewrite dom_fmap_L. by apply linked_dom.
  - intros k Hla. pose proof (linked_slot_in_recency c k Hc Hla) as Hin.
    split; [done|]. apply (linked_in_recency c k Hc) in Hin as [i Hi].
    unfold contents. rewrite lookup_fmap, Hi. by eexists.
Qed.

(** X2. On a cache built from a constructor by the member calls of [Call] and
    by [swap], with a positive capacity, no member call given iterators that
    address live entries reaches one of the undefined operations of the
    embedding: [front()] of an empty recency sequence, dereferencing [end()]
    or an erased entry, erasing a list node that is not in the list, reading
    through an empty or dangling slot. The call returns or throws and leaves
    such a cache again. Arguments are values; copied caches and arguments that
    refer into the cache's own entries are not modelled. *)
Theorem reachable_calls_defined {A} (op : Call A) c :
  reachable c → 0 < capacity c → valid_call op c →
  ∃ r, call op c = Some r ∧ reachable (state r).
Proof.
  intros Hr Hpos Hvalid.
  destruct (call_defined op c (reachable_wf c Hr) Hpos Hvalid) as [r Hcall].
  exists r. split; [done|]. by apply (reachable_call op c r).
Qed.

(** ** Shrinking *)

Lemma evict_while_spec fuel bound c :
  linked c → size c - bound ≤ fuel →
  ∃ c', evict_while fuel bound c = Some (MkRun (Return tt) c' []) ∧
        linked c' ∧
        recency c' = drop (size c - bound) (recency c) ∧
        (∀ k, _cache c' !! k
              = if decide (k ∈ recency c') then _cache c !! k else None) ∧
        _capacity c' = _capacity c ∧ _stats c' = _stats c ∧
        (∀ k, _last_accessed c' = Some k
              ↔ _last_accessed c = Some k ∧ k ∈ recency c').
Proof.
  revert c. induction fuel as [|fuel IH]; intros c Hc Hfuel; simpl.
  - exists c. rewrite decide_False by lia.
    replace (size c - bound) with 0 by lia. rewrite drop_0.
    split_and!; try done.
    + intros k. case_decide as Hk; [done|].
      rewrite (linked_in_recency c k Hc) in Hk.
      by apply eq_None_not_Some.
    + intros k. split; [|by intros [? _]].
      intros Hla. split; [done|]. by apply linked_slot_in_recency.
  - destruct (decide (bound < size c)) as [Hlt|Hge].
    + destruct (_order c) as [|n rest] eqn:Hq.
      { pose proof (linked_size c Hc) as Hsz. rewrite Hq in Hsz.
        unfold size in Hlt. simpl in Hsz. lia. }
      destruct (erase_lru_run c n rest Hc Hq) as (i & Hi & _ & Hrest & Hrun).
      pose proof (size_erased c n.2 i Hi) as Hsz.
      pose proof (linked_keys_NoDup c Hc) as Hnd.
      unfold recency, keys in Hnd. rewrite Hq, fmap_cons in Hnd.
      apply NoDup_cons in Hnd as [Hfront _].
      destruct (IH (erased n.2 i c))
        as (c' & Hloop & Hc' & Hrec & Hcache & Hcap & Hst & Hslot);
        [by apply linked_erased|lia|].
      assert (recency c' = drop (size c - bound) (recency c)) as Hrec'.
      { rewrite Hrec. unfold recency, keys. rewrite Hrest, Hq.
        replace (size c - bound) with (S (size (erased n.2 i c) - bound))
          by lia.
        by rewrite fmap_cons. }
      assert (∀ k, k ∈ recency c' → k ≠ n.2) as Hne.
      { intros k Hk ->. apply Hfront. rewrite Hrec in Hk.
        apply subseteq_drop in Hk. unfold recency in Hk.
        by rewrite Hrest in Hk. }
      exists c'. unfold bind. rewrite Hrun, Hloop.
      split_and!; try done.
      * intros k. rewrite Hcache. case_decide as Hk; [|done].
        simpl. apply lookup_delete_ne. intros <-. by apply (Hne n.2).
      * intros k. rewrite Hslot. simpl. unfold slot_without.
        split; intros [Hla Hk]; (split; [|done]).
        -- by case_bool_decide.
        -- rewrite bool_decide_eq_false_2; [done|].
           rewrite Hla. intros [= ->]. by apply (Hne n.2).
    + exists c. replace (size c - bound) with 0 by lia. rewrite drop_0.
      split_and!; try done.
      * intros k. case_decide as Hk; [done|].
        rewrite (linked_in_recency c k Hc) in Hk.
        by apply eq_None_not_Some.
      * intros k. split; [|by intros [? _]].
        intros Hla. split; [done|]. by apply linked_slot_in_recency.
Qed.

(** X3. [shrink(new_size)] evicts oldest-first: it leaves exactly the
    [new_size] newest keys of the recency order with their entries untouched,
    keeps the capacity, notifies nothing, and does nothing at all when
    [new_size >= size()]. *)
Theorem shrink_keeps_newest new_size c :
  wf c →
  ∃ c', shrink new_size c = Some (MkRun (Return tt) c' []) ∧
        recency c' = drop (size c - new_size) (recency c) ∧
        (∀ k, _cache c' !! k
              = if decide (k ∈ recency c') then _cache c !! k else None) ∧
        (∀ k, _last_accessed c' = Some k
              ↔ _last_accessed c = Some k ∧ k ∈ recency c') ∧
        size c' = size c `min` new_size ∧
        capacity c' = capacity c ∧ wf c' ∧
        (size c ≤ new_size → c' = c).
Proof.
  intros [Hc Hcap]. unfold shrink, capacity.
  destruct (decide (size c ≤ new_size)) as [Hle|Hgt].
  { exists c. replace (size c - new_size) with 0 by lia. rewrite drop_0.
    split_and!; try done; try lia.
    - intros k. case_decide as Hk; [done|].
      rewrite (linked_in_recency c k Hc) in Hk. by apply eq_None_not_Some.
    - intros k. split; [|by intros [? _]].
      intros Hla. split; [done|]. by apply linked_slot_in_recency. }
  destruct (decide (new_size = 0)) as [->|Hnz].
  { eexists. rewrite clear_run. split; [done|].
    assert (drop (size c - 0) (recency c) = []) as ->.
    { apply drop_ge. rewrite recency_length, <-(linked_size c Hc).
      unfold size. lia. }
    split_and!; try done.
    - intros k. simpl. split; [done|]. intros [_ Hin]. by inversion Hin.
    - unfold size; simpl. rewrite map_size_empty. lia.
    - split; [apply linked_cleared|].
      unfold size; simpl. rewrite map_size_empty. lia. }
  destruct (evict_while_spec (size c) new_size c Hc)
    as (c' & Hrun & Hc' & Hrec & Hcache & Hcap' & _ & Hslot); [lia|].
  destruct (evict_while_run (size c) new_size c Hc)
    as (c'' & Hrun' & _ & Hsz & _); [lia|].
  rewrite Hrun in Hrun'. injection Hrun' as <-.
  exists c'. split_and!; try done; try lia. split; [done|lia].
Qed.

(** X4. [capacity(new_capacity)] evicts oldest-first until the size fits, then
    assigns the capacity: the [new_capacity] newest keys survive with their
    entries untouched, and raising the capacity changes nothing else. *)
Theorem capacity_set_keeps_newest new_capacity c :
  wf c →
  ∃ c', capacity_set new_capacity c = Some (MkRun (Return tt) c' []) ∧
        recency c' = drop (size c - new_capacity) (recency c) ∧
        (∀ k, _cache c' !! k
              = if decide (k ∈ recency c') then _cache c !! k else None) ∧
        (∀ k, _last_accessed c' = Some k
              ↔ _last_accessed c = Some k ∧ k ∈ recency c') ∧
        size c' = size c `min` new_capacity ∧
        capacity c' = new_capacity ∧ wf c' ∧
        (size c ≤ new_capacity → c' = with_capacity new_capacity c).
Proof.
  intros [Hc Hcap]. unfold capacity_set, capacity, bind.
  destruct (evict_while_spec (size c) new_capacity c Hc)
    as (c' & Hrun & Hc' & Hrec & Hcache & Hcap' & _ & Hslot); [lia|].
  destruct (evict_while_run (size c) new_capacity c Hc)
    as (c'' & Hrun' & _ & Hsz & _); [lia|].
  rewrite Hrun in Hrun'. injection Hrun' as <-. rewrite Hrun.
  exists (with_capacity new_capacity c'). split_and!; try done.
  - split; [done|]. unfold size in *. simpl. lia.
  - intros Hle. destruct (size c) as [|n] eqn:Hn; simpl in Hrun.
    + rewrite decide_False in Hrun by lia. by injection Hrun as <-.
    + rewrite decide_False in Hrun by lia. by injection Hrun as <-.
Qed.

(** ** The three ways an insert can go *)

Lemma insert_cases c k v r :
  linked c → insert k v c = Some r →
  (∃ i, _cache c !! k = Some i ∧
        r = MkRun (Return (false, Some k)) (promoted k i v c) []) ∨
  (_cache c !! k = None ∧ size c ≠ _capacity c ∧
        r = MkRun (Return (true, Some k)) (appended k v c) []) ∨
  (_cache c !! k = None ∧ size c = _capacity c ∧
     ∃ n rest i, _order c = n :: rest ∧ _cache c !! n.2 = Some i ∧
        _order (erased n.2 i c) = rest ∧
        r = MkRun (Return (true, Some k))
              (appended k v (erased n.2 i c)) []).
Proof.
  intros Hc. destruct (_cache c !! k) as [i|] eqn:Hk.
  - rewrite (insert_present_run c k i v Hc Hk). intros [= <-].
    left. by exists i.
  - destruct (decide (size c = _capacity c)) as [Hfull|Hroom].
    + destruct (_order c) as [|n rest] eqn:Hq.
      { by rewrite (insert_full_empty c k v Hk Hfull Hq). }
      destruct (insert_full_run c k v n rest Hc Hk Hfull Hq)
        as (i & Hi & _ & Hrest & ->).
      intros [= <-]. right. right. split_and!; [done..|].
      by exists n, rest, i.
    + rewrite (insert_room_run c k v Hk Hroom). intros [= <-].
      right. by left.
Qed.

Lemma touch_absent k (ks : list Key) : k ∉ ks → touch k ks = ks ++ [k].
Proof.
  intros Hk. unfold touch. f_equal.
  induction ks as [|k' ks IH]; [done|].
  apply not_elem_of_cons in Hk as [Hne Hk].
  rewrite filter_cons_True by done. by rewrite IH.
Qed.

Lemma recency_promoted c k i v :
  linked c → _cache c !! k = Some i →
  recency (promoted k i v c) = touch k (recency c).
Proof.
  intros Hc Hk. unfold promoted. rewrite recency_appended. unfold touch.
  f_equal. unfold recency at 1; simpl. by apply recency_erase.
Qed.

Lemma linked_absent c k : linked c → _cache c !! k = None → k ∉ recency c.
Proof.
  intros Hc Hk Hin. apply (linked_in_recency c k Hc) in Hin as [i Hi].
  congruence.
Qed.

Lemma filter_Forall_id {A} (P : A → Prop) `{!∀ x, Decision (P x)}
    (l : list A) :
  Forall P l → filter P l = l.
Proof.
  induction 1 as [|x l Hx _ IH]; [done|].
  rewrite filter_cons_True by done. by rewrite IH.
Qed.

Lemma filter_new_node (q : Queue Key) :
  filter (λ n, n.1 ≠ new_node q) q = q.
Proof.
  apply filter_Forall_id, Forall_forall. intros m Hm Heq.
  apply (new_node_fresh q). rewrite <-Heq.
  by apply (list_elem_of_fmap_2 fst).
Qed.

(** ** Erasing through iterators *)

(** X5. Erasing through an iterator is erasing by key: for the entry of a
    present key, [erase(key)], [erase] of its hash-order iterator and [erase]
    of its recency-order iterator run identically; [erase] of either end
    iterator returns false and changes nothing. *)
Theorem erase_through_iterators c key i :
  wf c → _cache c !! key = Some i →
  erase_unordered (Some key) c = erase key c ∧
  erase_ordered (Some (order i)) c = erase key c ∧
  erase_unordered None c = Some (MkRun (Return false) c []) ∧
  erase_ordered None c = Some (MkRun (Return false) c []).
Proof.
  intros [Hc _] Hk. rewrite (erase_present_run c key i Hc Hk).
  split; [by apply erase_unordered_run|]. split; [|done].
  pose proof (linked_handle c key i Hc Hk) as Hnode.
  unfold erase_ordered, bind at 1, ordered_key.
  destruct (list_find_elem_of (λ m : QueueIterator * Key, m.1 = order i)
              (_order c) (order i, key) Hnode eq_refl) as [[j m] Hfind].
  rewrite Hfind. apply list_find_Some in Hfind as (Hj & Hm & _).
  apply list_elem_of_lookup_2 in Hj.
  assert (m.2 = key) as Hkey
    by by apply (linked_handle_key c key i m Hc Hk Hj).
  unfold ret, bind, cache_find; simpl. rewrite Hkey, Hk. unfold ret.
  by rewrite (erase_iterator_run c key i Hk (linked_handle_live c key i Hc Hk)).
Qed.

(** ** Round trips *)

Lemma insert_slot c k v r :
  wf c → insert k v c = Some r →
  ∃ i, _cache (state r) !! k = Some i ∧ value i = v ∧
       _last_accessed (state r) = Some k ∧ _stats (state r) = _stats c.
Proof.
  intros [Hc _] Hr.
  destruct (insert_cases c k v r Hc Hr)
    as [(i & _ & ->)|[(_ & _ & ->)|(_ & _ & n & rest & i & _ & _ & _ & ->)]];
    simpl; eexists; (split; [apply lookup_insert_eq|done]).
Qed.

(** X6. What was just inserted is found: [insert(key, value)] followed by
    [lookup(key)] returns [value] and [contains(key)] returns true, through
    the last-accessed slot, with exactly one hit notified when a statistics
    object is attached. *)
Theorem insert_then_lookup c key v :
  wf c → 0 < capacity c →
  (∃ r, bind (insert key v) (λ _, lookup key) c = Some r ∧
        result r = Return v ∧
        events r = if is_monitoring c then [Hit key] else []) ∧
  (∃ r, bind (insert key v) (λ _, contains key) c = Some r ∧
        result r = Return true ∧
        events r = if is_monitoring c then [Hit key] else []).
Proof.
  intros Hwf Hpos. destruct (insert_defined c key v Hwf Hpos) as [r Hr].
  destruct (insert_returns c key v r Hwf Hr) as (_ & _ & Hev & a & Ha).
  destruct (insert_slot c key v r Hwf Hr) as (i & Hi & Hv & _ & Hst).
  destruct r as [res c1 ev]; simpl in *. subst res ev v.
  assert (is_monitoring c1 = is_monitoring c) as Hmon
    by (unfold is_monitoring; by rewrite Hst).
  unfold bind. rewrite Hr. split.
  - rewrite (lookup_present_run c1 key i Hi). eexists. split; [done|].
    simpl. by rewrite Hmon.
  - rewrite (contains_present_run c1 key i Hi). eexists. split; [done|].
    simpl. by rewrite Hmon.
Qed.

(** X7. Inserting an absent key into a cache with room and erasing it again
    gives back the cache, entry for entry and in the same recency order, with
    the last-accessed slot emptied. *)
Theorem insert_then_erase c key v :
  wf c → _cache c !! key = None → size c < capacity c →
  bind (insert key v) (λ _, erase key) c
  = Some (MkRun (Return true) (with_last_accessed None c) []).
Proof.
  intros [Hc _] Hk Hroom. unfold capacity in Hroom. unfold bind.
  rewrite (insert_room_run c key v Hk) by lia.
  pose proof (linked_appended c key v Hc Hk) as Hc'.
  rewrite (erase_present_run (appended key v c) key
             (MkInformation (new_node (_order c)) v) Hc')
    by (simpl; apply lookup_insert_eq).
  unfold erased, appended, slot_without, with_last_accessed; simpl.
  rewrite bool_decide_eq_true_2 by done.
  rewrite delete_insert_id by done.
  rewrite filter_app, filter_cons_False, filter_nil, app_nil_r
    by (simpl; intros Hne; by apply Hne).
  by rewrite filter_new_node.
Qed.

(** ** Insertion against the reference order *)

Lemma trim_fits n (ks : list Key) : length ks ≤ n → trim n ks = ks.
Proof.
  intros Hn. unfold trim. replace (length ks - n) with 0 by lia.
  apply drop_0.
Qed.

Lemma contents_outside_recency c k :
  linked c → k ∉ recency c → contents c !! k = None.
Proof.
  intros Hc Hk. unfold contents. rewrite lookup_fmap.
  rewrite (linked_in_recency c k Hc) in Hk.
  apply eq_None_not_Some in Hk. by rewrite Hk.
Qed.

Lemma insert_step c k v :
  wf c → 0 < _capacity c →
  ∃ r, insert k v c = Some r ∧
       result r
       = Return (negb (bool_decide (is_Some (_cache c !! k))), Some k) ∧
       events r = [] ∧ wf (state r) ∧ _capacity (state r) = _capacity c ∧
       _stats (state r) = _stats c ∧
       recency (state r) = trim (_capacity c) (touch k (recency c)) ∧
       contents (state r) !! k = Some v ∧
       (∀ k', k' ≠ k →
          contents (state r) !! k'
          = if decide (k' ∈ recency (state r)) then contents c !! k'
            else None).
Proof.
  intros Hwf Hpos. pose proof Hwf as [Hc Hcap].
  destruct (insert_defined c k v Hwf Hpos) as [r Hr].
  destruct (insert_returns c k v r Hwf Hr) as (Hwf' & Hcap' & Hev & _).
  exists r. split; [done|].
  pose proof (linked_size c Hc) as Hsize. rewrite <-recency_length in Hsize.
  destruct (insert_cases c k v r Hc Hr)
    as [(i & Hk & ->)|[(Hk & Hroom & ->)
       |(Hk & Hfull & n & rest & i & Hq & Hi & Hrest & ->)]]; simpl in *.
  - assert (recency (promoted k i v c) = touch k (recency c)) as Hrec
      by by apply recency_promoted.
    rewrite Hk. split_and!; try done.
    + rewrite Hrec. symmetry. apply trim_fits. rewrite <-Hrec.
      rewrite recency_length. destruct Hwf' as [Hc' Hle].
      rewrite <-(linked_size _ Hc'). exact Hle.
    + unfold promoted. rewrite contents_appended. apply lookup_insert_eq.
    + intros k' Hne. unfold promoted at 1. rewrite contents_appended.
      rewrite lookup_insert_ne by done. case_decide as Hin; [done|].
      apply (contents_outside_recency c k' Hc). intros Hin'. apply Hin.
      rewrite Hrec. unfold touch. apply elem_of_app. left.
      by apply list_elem_of_filter.
  - pose proof (linked_absent c k Hc Hk) as Habs.
    rewrite Hk. split_and!; try done.
    + rewrite recency_appended, (touch_absent k _ Habs).
      symmetry. apply trim_fits. rewrite length_app. simpl.
      unfold size in *. lia.
    + rewrite contents_appended. apply lookup_insert_eq.
    + intros k' Hne. rewrite contents_appended, recency_appended.
      rewrite lookup_insert_ne by done. case_decide as Hin; [done|].
      apply (contents_outside_recency c k' Hc). intros Hin'. apply Hin.
      apply elem_of_app. by left.
  - pose proof (linked_absent c k Hc Hk) as Habs.
    pose proof (linked_keys_NoDup c Hc) as Hnd.
    assert (recency c = n.2 :: keys rest) as Hrecc.
    { unfold recency, keys. by rewrite Hq, fmap_cons. }
    assert (recency (erased n.2 i c) = keys rest) as Hrece.
    { unfold recency. simpl. simpl in Hrest. by rewrite Hrest. }
    rewrite Hrecc in Hnd. apply NoDup_cons in Hnd as [Hfront _].
    rewrite Hk. split_and!; try done.
    + rewrite recency_appended, Hrece, (touch_absent k _ Habs), Hrecc.
      unfold trim. rewrite Hrecc in Hsize.
      rewrite length_app. simpl in *.
      assert (S (length (keys rest) + 1) - _capacity c = 1) as ->
        by (unfold size in *; lia).
      done.
    + rewrite contents_appended. apply lookup_insert_eq.
    + intros k' Hne. rewrite contents_appended, recency_appended, Hrece.
      rewrite lookup_insert_ne by done. rewrite contents_erased.
      case_decide as Hin.
      * apply lookup_delete_ne. intros <-.
        apply elem_of_app in Hin as [Hin|Hin]; [done|].
        apply list_elem_of_singleton in Hin. done.
      * destruct (decide (k' = n.2)) as [->|Hne'].
        { apply lookup_delete_eq. }
        rewrite lookup_delete_ne by done.
        apply (contents_outside_recency c k' Hc). rewrite Hrecc.
        intros [?|Hin']%elem_of_cons; [done|].
        apply Hin, elem_of_app. by left.
Qed.

(** X8. One [insert] against the reference order: the recency order afterwards
    is the old one with [key] moved (or added) to the newest end and trimmed
    to the capacity; [key] maps to [value], every other surviving key keeps
    its value, and every key that left the order left the hash index. *)
Theorem insert_touches_and_trims c key v :
  wf c → 0 < capacity c →
  ∃ r, insert key v c = Some r ∧
       recency (state r) = trim (capacity c) (touch key (recency c)) ∧
       contents (state r) !! key = Some v ∧
       (∀ k, k ≠ key →
          contents (state r) !! k
          = if decide (k ∈ recency (state r)) then contents c !! k
            else None) ∧
       capacity (state r) = capacity c.
Proof.
  intros Hwf Hpos.
  destruct (insert_step c key v Hwf Hpos)
    as (r & Hr & _ & _ & _ & Hcap & _ & Hrec & Hk & Hother).
  by exists r.
Qed.

Lemma insert_range_step range c :
  wf c → 0 < _capacity c →
  ∃ r, insert_range range c = Some r ∧ result r = Return tt ∧
       events r = [] ∧ wf (state r) ∧ _capacity (state r) = _capacity c ∧
       _stats (state r) = _stats c ∧
       recency (state r) = lru_order (_capacity c) (recency c) range.*1.
Proof.
  revert c. induction range as [|p range IH]; intros c Hwf Hpos.
  - by eexists.
  - destruct (insert_step c p.1 p.2 Hwf Hpos)
      as ([res1 c1 ev1] & Hr1 & Hres1 & Hev1 & Hwf1 & Hcap1 & Hst1 & Hrec1 & _).
    simpl in *. subst res1 ev1.
    destruct (IH c1 Hwf1) as ([res2 c2 ev2] & Hr2 & Hres2 & Hev2 & Hwf2
                              & Hcap2 & Hst2 & Hrec2); [lia|].
    simpl in *. subst res2 ev2.
    eexists. unfold bind. rewrite Hr1, Hr2. split; [done|]. simpl.
    split_and!; try done; try congruence.
    rewrite Hrec2, Hrec1, Hcap1. done.
Qed.

(** X9. Bulk insertion against the reference order: [insert(begin, end)] on a
    cache of positive capacity returns, notifies nothing, and leaves the
    recency order obtained by using the keys of the range one after the other.
    *)
Theorem insert_range_follows_lru range c :
  wf c → 0 < capacity c →
  ∃ r, insert_range range c = Some r ∧ result r = Return tt ∧
       events r = [] ∧ wf (state r) ∧ capacity (state r) = capacity c ∧
       recency (state r) = lru_order (capacity c) (recency c) range.*1.
Proof.
  intros Hwf Hpos.
  destruct (insert_range_step range c Hwf Hpos)
    as (r & Hr & Hres & Hev & Hwf' & Hcap & _ & Hrec).
  by exists r.
Qed.

(** ** Construction from a range *)

Lemma insert_without_eviction c k v :
  wf c → size c < _capacity c →
  ∃ r, insert k v c = Some r ∧ wf (state r) ∧
       _capacity (state r) = _capacity c ∧
       contents (state r) = <[k := v]> (contents c) ∧
       recency (state r) = touch k (recency c) ∧
       size (state r) ≤ S (size c).
Proof.
  intros Hwf Hroom. pose proof Hwf as [Hc _].
  destruct (insert_defined c k v Hwf) as [r Hr]; [lia|].
  destruct (insert_returns c k v r Hwf Hr) as (Hwf' & Hcap' & _).
  exists r. split; [done|]. split; [done|]. split; [done|].
  destruct (insert_cases c k v r Hc Hr)
    as [(i & Hk & ->)|[(Hk & _ & ->)|(_ & Hfull & _)]]; [| |exfalso; lia];
    simpl.
  - split_and!.
    + unfold promoted. by rewrite contents_appended.
    + by apply recency_promoted.
    + rewrite (size_promoted c k i v Hk). lia.
  - split_and!.
    + by rewrite contents_appended.
    + rewrite recency_appended. symmetry. apply touch_absent.
      by apply linked_absent.
    + by rewrite (size_appended c k v Hk).
Qed.

Lemma list_to_map_reverse_cons (p : Key * Value) range (m : gmap Key Value) :
  list_to_map (reverse (p :: range)) ∪ m
  = list_to_map (reverse range) ∪ <[p.1 := p.2]> m.
Proof.
  rewrite reverse_cons, list_to_map_app. destruct p as [k v]; simpl.
  rewrite <-(assoc_L (∪)). f_equal.
  by rewrite insert_empty, <-insert_union_singleton_l.
Qed.

Lemma insert_range_without_eviction range c :
  wf c → size c + length range ≤ _capacity c →
  ∃ r, insert_range range c = Some r ∧ wf (state r) ∧
       _capacity (state r) = _capacity c ∧
       contents (state r) = list_to_map (reverse range) ∪ contents c ∧
       recency (state r) = foldl (λ ks k, touch k ks) (recency c) range.*1.
Proof.
  revert c. induction range as [|p range IH]; intros c Hwf Hroom.
  - eexists. split; [done|]. simpl. split_and!; try done.
    by rewrite (left_id_L ∅ (∪)).
  - simpl in Hroom.
    destruct (insert_without_eviction c p.1 p.2 Hwf)
      as ([res1 c1 ev1] & Hr1 & Hwf1 & Hcap1 & Hcont1 & Hrec1 & Hsz1); [lia|].
    destruct (insert_returns c _ _ _ Hwf Hr1) as (_ & _ & _ & a & Ha).
    simpl in *. subst res1.
    destruct (IH c1 Hwf1) as ([res2 c2 ev2] & Hr2 & Hwf2 & Hcap2 & Hcont2
                              & Hrec2); [lia|].
    simpl in *. eexists. unfold bind. rewrite Hr1, Hr2. split; [done|].
    simpl. split_and!; try done; try congruence.
    + rewrite Hcont2, Hcont1. symmetry. apply list_to_map_reverse_cons.
    + by rewrite Hrec2, Hrec1.
Qed.

Lemma foldl_touch_NoDup (ks0 ks : list Key) :
  NoDup (ks0 ++ ks) → foldl (λ l k, touch k l) ks0 ks = ks0 ++ ks.
Proof.
  revert ks0. induction ks as [|k ks IH]; intros ks0 Hnd; simpl.
  - by rewrite app_nil_r.
  - assert (k ∉ ks0) as Hk.
    { apply NoDup_app in Hnd as (_ & Hdisj & _). intros Hin.
      apply (Hdisj k Hin). by left. }
    rewrite (touch_absent k ks0 Hk). rewrite IH; rewrite <-(assoc_L (++)); done.
Qed.

(** X10. The constructors that take their capacity from the length of the
    range never evict: the constructed cache holds every key of the range,
    each with the value of its last occurrence, and with pairwise distinct
    keys it holds exactly the range, in order, and is full. *)
Theorem new_of_holds_every_key (range : list (Key * Value)) :
  ∃ c : Cache, new_of range = Some c ∧ wf c ∧
    capacity c = length range ∧
    contents c = list_to_map (reverse range) ∧
    (∀ p, p ∈ range → is_Some (contents c !! p.1)) ∧
    (NoDup range.*1 →
       recency c = range.*1 ∧ contents c = list_to_map range ∧
       is_full c = true).
Proof.
  destruct (insert_range_without_eviction range (new (length range)))
    as (r & Hr & Hwf & Hcap & Hcont & Hrec);
    [apply wf_new|unfold size, new; simpl; rewrite map_size_empty; lia|].
  assert (contents (state r) = list_to_map (reverse range)) as Hcont'.
  { rewrite Hcont. unfold contents, new; simpl.
    by rewrite fmap_empty, (right_id_L ∅ (∪)). }
  exists (state r). unfold new_of, new_from. rewrite Hr.
  split; [done|]. split; [done|]. split; [done|]. split; [done|]. split.
  - intros p Hp. apply elem_of_dom. rewrite Hcont', dom_list_to_map_L.
    apply elem_of_list_to_set. rewrite fmap_reverse, elem_of_reverse.
    by apply list_elem_of_fmap_2.
  - intros Hnd.
    assert (recency (state r) = range.*1) as Hrec'.
    { rewrite Hrec. by apply (foldl_touch_NoDup []). }
    split; [done|]. split.
    + rewrite Hcont'. symmetry. apply list_to_map_proper; [done|].
      symmetry. apply reverse_Permutation.
    + unfold is_full. apply bool_decide_eq_true_2. rewrite Hcap.
      destruct Hwf as [Hc _]. unfold size. rewrite (linked_size _ Hc).
      rewrite <-recency_length, Hrec'. by rewrite length_fmap.
Qed.

(** X11. Construction with an explicit capacity: with a positive capacity the
    constructor returns a well-formed cache whose recency order is the
    reference order of the range's keys; with capacity 0 it is defined for the
    empty range only. *)
Theorem new_from_follows_lru capacity (range : list (Key * Value)) :
  (0 < capacity →
     ∃ c : Cache, new_from capacity range = Some c ∧ wf c ∧
       _capacity c = capacity ∧
       recency c = lru_order capacity [] range.*1) ∧
  (new_from 0 range
   = match range with
     | [] => Some (new 0 : Cache)
     | _ :: _ => None
     end).
Proof.
  split.
  - intros Hpos.
    destruct (insert_range_step range (new capacity))
      as (r & Hr & _ & _ & Hwf & Hcap & _ & Hrec); [apply wf_new|done|].
    exists (state r). unfold new_from. by rewrite Hr.
  - destruct range as [|p range]; [done|].
    unfold new_from. simpl. unfold bind.
    by rewrite insert_full_empty.
Qed.

(** ** Equality and swap *)

(** X12. [operator==] returns true exactly when both caches hold the same
    key/value pairs in the same recency order (I5), [operator!=] exactly when
    they differ in content or in order; the comparison is reflexive, symmetric
    and transitive although it walks the left map only. *)
Theorem operator_eq_decides_content_and_order c d :
  (operator_eq c d = true ↔ contents c = contents d ∧ recency c = recency d) ∧
  (operator_ne c d = true ↔ contents c ≠ contents d ∨ recency c ≠ recency d) ∧
  operator_eq c c = true ∧
  operator_eq c d = operator_eq d c ∧
  (∀ e : Cache, operator_eq c d = true → operator_eq d e = true →
                operator_eq c e = true).
Proof.
  split; [apply operator_eq_spec|]. split; [|split; [|split]].
  - unfold operator_ne. rewrite negb_true_iff, <-not_true_iff_false.
    rewrite operator_eq_spec.
    destruct (decide (contents c = contents d)) as [Hm|Hm];
      destruct (decide (recency c = recency d)) as [Hq|Hq]; intuition.
  - by apply operator_eq_spec.
  - destruct (operator_eq c d) eqn:Hcd, (operator_eq d c) eqn:Hdc; try done.
    + apply operator_eq_spec in Hcd as [Hm Hq].
      apply not_true_iff_false in Hdc. exfalso. apply Hdc.
      by apply operator_eq_spec.
    + apply operator_eq_spec in Hdc as [Hm Hq].
      apply not_true_iff_false in Hcd. exfalso. apply Hcd.
      by apply operator_eq_spec.
  - intros e [Hm1 Hq1]%operator_eq_spec [Hm2 Hq2]%operator_eq_spec.
    apply operator_eq_spec. split; congruence.
Qed.

(** X13. [swap] exchanges content, recency order, last-accessed slot and
    capacity of two caches and leaves each statistics object where it was;
    swapping twice restores both caches, and well-formed caches stay
    well-formed. *)
Theorem swap_exchanges_all_but_statistics c d :
  operator_eq (swap c d).1 d = true ∧ operator_eq (swap c d).2 c = true ∧
  capacity (swap c d).1 = capacity d ∧ capacity (swap c d).2 = capacity c ∧
  _last_accessed (swap c d).1 = _last_accessed d ∧
  _last_accessed (swap c d).2 = _last_accessed c ∧
  _stats (swap c d).1 = _stats c ∧ _stats (swap c d).2 = _stats d ∧
  swap (swap c d).1 (swap c d).2 = (c, d) ∧
  (wf c → wf d → wf (swap c d).1 ∧ wf (swap c d).2).
Proof.
  split; [by apply operator_eq_spec|]. split; [by apply operator_eq_spec|].
  split_and!; try done; try apply wf_swap. by destruct c, d.
Qed.

(** ** Free space *)

(** X14. On a well-formed cache whose capacity fits [size_t], the unsigned
    subtraction of [space_left()] does not wrap: it returns [capacity() -
    size()], and returns 0 exactly when the cache is full. *)
Theorem space_left_counts_free_slots width c :
  wf c → (Z.of_nat (capacity c) < 2 ^ width)%Z →
  space_left width c = Z.of_nat (capacity c - size c) ∧
  (space_left width c = 0%Z ↔ is_full c = true).
Proof.
  intros [_ Hcap] Hfit. unfold space_left, capacity, is_full in *.
  assert (space_left width c = Z.of_nat (_capacity c - size c)) as Hsl.
  { unfold space_left. rewrite Z.mod_small; lia. }
  unfold space_left in Hsl. rewrite Hsl. split; [done|].
  rewrite bool_decide_eq_true. lia.
Qed.

(** ** Clearing *)

(** X15. [clear()] on any cache, well-formed or not, returns the empty cache
    of the same capacity with the same statistics object: both containers are
    empty, the slot is empty, nothing is notified and the result is
    well-formed. *)
Theorem clear_resets_any_cache c :
  clear c
  = Some (MkRun (Return tt) (with_stats (_stats c) (new (_capacity c) : Cache)) []) ∧
  wf (with_stats (_stats c) (new (_capacity c) : Cache)) ∧
  is_empty (with_stats (_stats c) (new (_capacity c) : Cache)) = true.
Proof.
  split; [done|]. split; [|done]. apply wf_with_stats, wf_new.
Qed.

(** ** Monitoring *)

(** X16. [statistics()] returns the object handed to the last [monitor], and
    throws [NotMonitoring] after [stop_monitoring]; neither call touches the
    entries. *)
Theorem monitor_then_statistics c (s : Statistics) :
  bind (monitor s) (λ _, statistics) c
  = Some (MkRun (Return s) (with_stats (Some s) c) []) ∧
  bind stop_monitoring (λ _, statistics) c
  = Some (MkRun (Throw NotMonitoring) (with_stats None c) []) ∧
  bind (monitor s) (λ _, bind stop_monitoring (λ _, get)) c
  = Some (MkRun (Return (with_stats None c)) (with_stats None c) []).
Proof. done. Qed.

(** ** What a call leaves alone *)






End Further.

(** * Further properties of the legacy class *)

Section FurtherLegacy.
Context {Key : Type} `{Countable Key}.
Context {Value : Type}.

Local Abbreviation Legacy := (@AbstractCache.AbstractCache Key _ _ Value).
Implicit Types (c : Legacy) (k key : Key).

Lemma legacy_erase_run c k (i : @Information Value) :
  AbstractCache._cache c !! k = Some i →
  order i ∈ (AbstractCache._order c).*1 →
  ∃ c', AbstractCache._erase (Some k) c = Some c' ∧
        AbstractCache.to_base c' = erased k i (AbstractCache.to_base c).
Proof.
  intros Hk Hh. unfold AbstractCache._erase. rewrite Hk.
  rewrite decide_True by done. by eexists.
Qed.

(** X18. [AbstractCache::_erase] and [BaseCache::_erase] are the same function
    of containers, slot and capacity: both are undefined on the same iterators
    and leave the same cache elsewhere. *)
Theorem legacy_erase_matches_base (iterator : option Key) c :
  AbstractCache.to_base <$> AbstractCache._erase iterator c
  = state <$> _erase iterator (AbstractCache.to_base c).
Proof.
  destruct iterator as [k|]; [|done].
  destruct (AbstractCache._cache c !! k) as [i|] eqn:Hk.
  - destruct (decide (order i ∈ (AbstractCache._order c).*1)) as [Hh|Hh].
    + destruct (legacy_erase_run c k i Hk Hh) as (c' & -> & Hc').
      rewrite (erase_iterator_run (AbstractCache.to_base c) k i Hk Hh).
      simpl. by rewrite Hc'.
    + unfold AbstractCache._erase. rewrite Hk, decide_False by done.
      unfold _erase, bind, last_accessed_at, last_accessed_is, ret,
        invalidate, modify, deref, order_erase.
      destruct (bool_decide _); simpl; rewrite Hk; simpl;
        by rewrite decide_False by done.
  - unfold AbstractCache._erase. rewrite Hk.
    by rewrite (erase_dangling (AbstractCache.to_base c) k Hk).
Qed.

(** X19. [AbstractCache::erase] probes the hash index again after the slot
    path has erased the entry; on a well-formed cache the second probe finds
    nothing, so the key is removed exactly once from both containers, the
    cache stays well-formed, and erasing an absent key changes nothing. *)
Theorem legacy_erase_removes_once c key :
  linked (AbstractCache.to_base c) →
  (AbstractCache._cache c !! key = None →
     AbstractCache.erase key c = Some c) ∧
  (∀ i, AbstractCache._cache c !! key = Some i →
     ∃ c', AbstractCache.erase key c = Some c' ∧
           AbstractCache._cache c' = delete key (AbstractCache._cache c) ∧
           keys (AbstractCache._order c')
           = filter (λ k, k ≠ key) (keys (AbstractCache._order c)) ∧
           linked (AbstractCache.to_base c')).
Proof.
  intros Hc. split.
  - intros Hk. unfold AbstractCache.erase.
    pose proof Hc as (_ & _ & _ & Hs).
    pose proof (slot_valid_absent (AbstractCache.to_base c) key Hs Hk) as Hla.
    simpl in Hla. rewrite bool_decide_eq_false_2 by done. simpl.
    by rewrite Hk.
  - intros i Hk.
    pose proof (linked_handle_live (AbstractCache.to_base c) key i Hc Hk)
      as Hh. simpl in Hh.
    destruct (legacy_erase_run c key i Hk Hh) as (c' & Hrun & Hc').
    assert (AbstractCache._cache c' = delete key (AbstractCache._cache c)
            ∧ AbstractCache._order c'
              = filter (λ n, n.1 ≠ order i) (AbstractCache._order c))
      as [Hcache Horder].
    { destruct c'. unfold AbstractCache.to_base, erased in Hc'. simpl in *.
      by injection Hc' as -> -> _ _. }
    exists c'. split; [|split; [done|split]].
    + unfold AbstractCache.erase. case_bool_decide as Hla; simpl.
      * rewrite Hla, Hrun. simpl. rewrite Hcache, lookup_delete_eq. done.
      * unfold AbstractCache._erase in Hrun. rewrite Hk in Hrun |- *.
        exact Hrun.
    + rewrite Horder.
      apply (recency_erase (AbstractCache.to_base c) key i Hc Hk).
    + rewrite Hc'. by apply linked_erased.
Qed.

(** X20. [AbstractCache::_erase_lru] pops the front of the recency sequence
    and erases its key from the hash index, as [BaseCache::_erase_lru] does,
    but never looks at the last-accessed slot: the slot is kept even when it
    names the evicted key, so it is valid afterwards exactly when it did not
    name that key. *)
Theorem legacy_erase_lru_keeps_slot c n rest :
  linked (AbstractCache.to_base c) →
  AbstractCache._order c = n :: rest →
  ∃ c' i, AbstractCache._erase_lru c = Some c' ∧
     AbstractCache._cache c !! n.2 = Some i ∧
     AbstractCache.to_base c'
     = with_last_accessed (AbstractCache._last_accessed c)
         (erased n.2 i (AbstractCache.to_base c)) ∧
     _erase_lru (AbstractCache.to_base c)
     = Some (MkRun (Return tt) (erased n.2 i (AbstractCache.to_base c)) []) ∧
     (AbstractCache.slot_valid c'
      ↔ AbstractCache._last_accessed c ≠ Some n.2).
Proof.
  intros Hc Hq.
  destruct (erase_lru_run (AbstractCache.to_base c) n rest Hc Hq)
    as (i & Hi & _ & Hrest & Hrun).
  unfold AbstractCache._erase_lru. rewrite Hq. eexists _, i.
  split; [done|]. split; [done|]. split; [|split; [done|]].
  - unfold AbstractCache.to_base, with_last_accessed, erased; simpl.
    simpl in Hrest. by rewrite Hrest.
  - unfold AbstractCache.slot_valid; simpl.
    pose proof Hc as (_ & _ & _ & Hs). unfold slot_valid in Hs. simpl in Hs.
    destruct (AbstractCache._last_accessed c) as [k|]; [|done].
    destruct (decide (k = n.2)) as [->|Hne].
    + rewrite lookup_delete_eq. split; [by intros [? ?]|done].
    + rewrite lookup_delete_ne by done. split; [congruence|done].
Qed.

End FurtherLegacy.


(** * The further properties at concrete caches *)

Section FurtherConcrete.
Import Examples.

Lemma wf_two_of_three : wf two_of_three.
Proof. apply (bool_decide_unpack _). vm_compute. exact I. Qed.

Lemma wf_three_of_three : wf three_of_three.
Proof. apply (bool_decide_unpack _). vm_compute. exact I. Qed.

Lemma reachable_three_of_three : reachable three_of_three.
Proof.
  apply (reachable_after (CallInsert 3 30)).
  apply (reachable_after (CallInsert 2 20)).
  apply (reachable_after (CallInsert 1 10)).
  apply reachable_new.
Qed.

Lemma wf_legacy_two : wf (AbstractCache.to_base legacy_two).
Proof. apply (bool_decide_unpack _). vm_compute. exact I. Qed.

Lemma reachable_index_matches_sequence_witness :
  reachable three_of_three ∧ NoDup (recency three_of_three) ∧
  dom (contents three_of_three) = list_to_set (recency three_of_three).
Proof.
  split; [exact reachable_three_of_three|].
  destruct (reachable_index_matches_sequence three_of_three
              reachable_three_of_three) as (Hnd & Hdom & _).
  by split.
Defined.

Lemma reachable_calls_defined_witness :
  reachable three_of_three ∧ 0 < capacity three_of_three ∧
  ∃ r, call (CallInsert 4 40) three_of_three = Some r ∧ reachable (state r).
Proof.
  split; [exact reachable_three_of_three|].
  assert (0 < capacity three_of_three) as Hpos by (vm_compute; lia).
  split; [exact Hpos|].
  exact (reachable_calls_defined (CallInsert 4 40) three_of_three
           reachable_three_of_three Hpos I).
Defined.

Lemma shrink_keeps_newest_witness :
  wf three_of_three ∧
  ∃ c', shrink 1 three_of_three = Some (MkRun (Return tt) c' []) ∧
        recency c' = [3] ∧ size c' = 1 ∧ capacity c' = 3.
Proof.
  split; [exact wf_three_of_three|].
  destruct (shrink_keeps_newest 1 three_of_three wf_three_of_three)
    as (c' & Hrun & Hrec & _ & _ & Hsize & Hcap & _).
  exists c'. split; [exact Hrun|]. split; [|split].
  - rewrite Hrec. vm_compute. reflexivity.
  - rewrite Hsize. vm_compute. reflexivity.
  - rewrite Hcap. vm_compute. reflexivity.
Defined.

Lemma capacity_set_keeps_newest_witness :
  wf three_of_three ∧
  ∃ c', capacity_set 2 three_of_three = Some (MkRun (Return tt) c' []) ∧
        recency c' = [2; 3] ∧ size c' = 2 ∧ capacity c' = 2.
Proof.
  split; [exact wf_three_of_three|].
  destruct (capacity_set_keeps_newest 2 three_of_three wf_three_of_three)
    as (c' & Hrun & Hrec & _ & _ & Hsize & Hcap & _).
  exists c'. split; [exact Hrun|]. split; [|split].
  - rewrite Hrec. vm_compute. reflexivity.
  - rewrite Hsize. vm_compute. reflexivity.
  - exact Hcap.
Defined.

Lemma erase_through_iterators_witness :
  wf three_of_three ∧
  _cache three_of_three !! 2 = Some (MkInformation 2 20) ∧
  erase_unordered (Some 2) three_of_three = erase 2 three_of_three ∧
  erase_ordered (Some 2) three_of_three = erase 2 three_of_three.
Proof.
  assert (_cache three_of_three !! 2 = Some (MkInformation 2 20)) as Hk
    by (vm_compute; reflexivity).
  split; [exact wf_three_of_three|]. split; [exact Hk|].
  destruct (erase_through_iterators three_of_three 2 _ wf_three_of_three Hk)
    as (Hu & Ho & _).
  by split.
Defined.

Lemma insert_then_lookup_witness :
  wf three_of_three ∧ 0 < capacity three_of_three ∧
  ∃ r, bind (insert 4 40) (λ _, lookup 4) three_of_three = Some r ∧
       result r = Return 40.
Proof.
  assert (0 < capacity three_of_three) as Hpos by (vm_compute; lia).
  split; [exact wf_three_of_three|]. split; [exact Hpos|].
  destruct (insert_then_lookup three_of_three 4 40 wf_three_of_three Hpos)
    as [(r & Hr & Hres & _) _].
  by exists r.
Defined.

Lemma insert_then_erase_witness :
  wf two_of_three ∧ _cache two_of_three !! 3 = None ∧
  size two_of_three < capacity two_of_three ∧
  bind (insert 3 30) (λ _, erase 3) two_of_three
  = Some (MkRun (Return true) (with_last_accessed None two_of_three) []).
Proof.
  assert (_cache two_of_three !! 3 = None) as Hk by (vm_compute; reflexivity).
  assert (size two_of_three < capacity two_of_three) as Hroom
    by (vm_compute; lia).
  split; [exact wf_two_of_three|]. split; [exact Hk|]. split; [exact Hroom|].
  exact (insert_then_erase two_of_three 3 30 wf_two_of_three Hk Hroom).
Defined.

Lemma insert_touches_and_trims_witness :
  wf three_of_three ∧ 0 < capacity three_of_three ∧
  ∃ r, insert 4 40 three_of_three = Some r ∧
       recency (state r) = [2; 3; 4] ∧
       contents (state r) !! 4 = Some 40.
Proof.
  assert (0 < capacity three_of_three) as Hpos by (vm_compute; lia).
  split; [exact wf_three_of_three|]. split; [exact Hpos|].
  destruct (insert_touches_and_trims three_of_three 4 40
              wf_three_of_three Hpos) as (r & Hr & Hrec & Hk & _).
  exists r. split; [exact Hr|]. split; [|exact Hk].
  rewrite Hrec. vm_compute. reflexivity.
Defined.

Lemma insert_range_follows_lru_witness :
  wf two_of_two ∧ 0 < capacity two_of_two ∧
  ∃ r, insert_range [(3, 30); (2, 21); (4, 40)] two_of_two = Some r ∧
       recency (state r) = [2; 4].
Proof.
  assert (0 < capacity two_of_two) as Hpos by (vm_compute; lia).
  split; [exact wf_two_of_two|]. split; [exact Hpos|].
  destruct (insert_range_follows_lru [(3, 30); (2, 21); (4, 40)] two_of_two
              wf_two_of_two Hpos) as (r & Hr & _ & _ & _ & _ & Hrec).
  exists r. split; [exact Hr|]. rewrite Hrec. vm_compute. reflexivity.
Defined.

Lemma space_left_counts_free_slots_witness :
  wf two_of_three ∧ (Z.of_nat (capacity two_of_three) < 2 ^ 64)%Z ∧
  space_left 64 two_of_three = 1%Z.
Proof.
  assert (Z.of_nat (capacity two_of_three) < 2 ^ 64)%Z as Hfit
    by (vm_compute; reflexivity).
  split; [exact wf_two_of_three|]. split; [exact Hfit|].
  destruct (space_left_counts_free_slots 64 two_of_three
              wf_two_of_three Hfit) as [Hsl _].
  rewrite Hsl. vm_compute. reflexivity.
Defined.


Lemma legacy_erase_removes_once_witness :
  linked (AbstractCache.to_base legacy_two) ∧
  ∃ c', AbstractCache.erase 1 legacy_two = Some c' ∧
        AbstractCache._cache c' = delete 1 (AbstractCache._cache legacy_two) ∧
        keys (AbstractCache._order c') = [2].
Proof.
  split; [exact (proj1 wf_legacy_two)|].
  destruct (legacy_erase_removes_once legacy_two 1 (proj1 wf_legacy_two))
    as [_ Hpresent].
  destruct (Hpresent (MkInformation 1 10)) as (c' & Hrun & Hcache & Hq & _);
    [vm_compute; reflexivity|].
  exists c'. split; [exact Hrun|]. split; [exact Hcache|].
  rewrite Hq. vm_compute. reflexivity.
Defined.

Lemma legacy_erase_lru_keeps_slot_witness :
  linked (AbstractCache.to_base legacy_two) ∧
  AbstractCache._order legacy_two = [(1, 1); (2, 2)] ∧
  ∃ c', AbstractCache._erase_lru legacy_two = Some c' ∧
        AbstractCache._last_accessed c' = Some 1 ∧
        AbstractCache._cache c' !! 1 = None ∧
        ¬ AbstractCache.slot_valid c'.
Proof.
  split; [exact (proj1 wf_legacy_two)|]. split; [reflexivity|].
  destruct (legacy_erase_lru_keeps_slot legacy_two (1, 1) [(2, 2)]
              (proj1 wf_legacy_two) eq_refl)
    as (c' & i & Hrun & _ & _ & _ & Hslot).
  exists c'. split; [exact Hrun|].
  injection Hrun as <-. split; [reflexivity|]. split; [reflexivity|].
  rewrite Hslot. intros Hne. by apply Hne.
Defined.

End FurtherConcrete.
